(** * The SQL Server PreLogin packet writer

    A shallow embedding of [WritePrelogin]
    (lib/srv/db/sqlserver/protocol/prelogin.go) and the properties of the
    packet it assembles: descriptor table layout, offset bookkeeping,
    ordering, length patching and error behaviour. *)

From Stdlib Require Import ZArith Lia Strings.Byte Strings.String.
From stdpp Require Import base option list sorting gmap fin_maps.

Local Open Scope Z_scope.

(** ** Bytes and 16-bit words *)

(** Go's [uint8] is [Byte.byte]; it is a key type of Go maps, so it needs
    decidable equality and an enumeration. *)
#[global] Instance byte_eq_dec : EqDecision byte := Byte.byte_eq_dec.

#[global] Program Instance byte_countable : Countable byte :=
  inj_countable Byte.to_N Byte.of_N _.
Next Obligation. intros b. apply Byte.of_to_N. Qed.

#[global] Instance byte_inhabited : Inhabited byte := populate x00.

(** The numeric value of a byte. *)
Definition byte_val (b : byte) : Z := Z.of_N (Byte.to_N b).

(** Go's conversion [byte(x)]: the low eight bits. *)
Definition to_byte (x : Z) : byte :=
  default x00 (Byte.of_N (Z.to_N (x mod 256))).

(** Go's conversion [uint16(x)] of a non-negative integer. *)
Definition uint16 (x : Z) : Z := x mod 65536.

(** [binary.BigEndian] encoding of a [uint16]: high byte first. *)
Definition be16 (x : Z) : list byte := [to_byte (Z.shiftr x 8); to_byte x].

(** Reading a big-endian 16-bit integer at index [i] of a byte slice. *)
Definition u16_at (b : list byte) (i : nat) : option Z :=
  match b !! i, b !! S i with
  | Some hi, Some lo => Some (byte_val hi * 256 + byte_val lo)
  | _, _ => None
  end.

(** ** Errors, results and effects *)

(** Go [error] values that this function can produce or pass on.  A nil
    error is [None] of [option error]. *)
Inductive error : Type :=
  | errors_New (msg : string)   (* errors.New(msg) *)
  | io_error (code : nat)       (* an error reported by a writer *)
  | trace_Wrap (e : error).     (* trace.Wrap(e), for e != nil *)

(** The result of running a piece of Go code: normal completion, an early
    [return err], or a run-time panic (slice index out of range). *)
Inductive res (A : Type) : Type :=
  | Ok (a : A)
  | Err (e : error)
  | Panic.
Arguments Ok {A} a.
Arguments Err {A} e.
Arguments Panic {A}.

(** What a call of [WritePrelogin] does to the outside world. *)
Inductive event : Type :=
  | Printf (pkt : list byte)      (* fmt.Printf of the packet *)
  | ConnWrite (pkt : list byte).  (* conn.Write(pkt) *)

(** How the call ends. *)
Inductive outcome : Type :=
  | Returned (err : option error)
  | Panicked.

(** The only method of [net.Conn] that is used is [Write], once; a
    connection is what that call answers: [(n, err)]. *)
Definition Conn : Type := list byte → nat * option error.

(** ** The buffer [w]

    [w] is a [*bytes.Buffer].  The code checks the results of its
    [WriteByte] and [Write] methods (and of [binary.Write] on it), so the
    model keeps those results: a write policy tells, from the buffer's
    content and the bytes to write, the count [n] and the error the write
    reports; the first [n] of the bytes are appended. *)
Class WritePolicy : Type :=
  write_reports : list byte → list byte → nat * option error.

(** [bytes.Buffer]: every write appends all the bytes and reports no
    error. *)
Definition bytes_Buffer : WritePolicy := λ _ p, (length p, None).

(** Code that works on the buffer: a state and error monad. *)
Definition M (A : Type) : Type := list byte → res (A * list byte).

#[global] Instance M_ret : MRet M := λ A a buf, Ok (a, buf).

#[global] Instance M_bind : MBind M := λ A B f m buf,
  match m buf with
  | Ok (a, buf') => f a buf'
  | Err e => Err e
  | Panic => Panic
  end.

(** [return err] *)
Definition throw {A} (e : error) : M A := λ _, Err e.

(** [if err != nil { return err }] *)
Definition check (err : option error) : M unit :=
  match err with
  | Some e => throw e
  | None => mret tt
  end.

Section Writer.
Context {W : WritePolicy}.

(** [n, err := w.Write(p)] *)
Definition Write (p : list byte) : M (nat * option error) := λ buf,
  let r := write_reports buf p in
  Ok (r, buf ++ take r.1 p).

(** [err := w.WriteByte(c)] *)
Definition WriteByte (c : byte) : M (option error) :=
  r ← Write [c]; mret r.2.

(** [err := binary.Write(w, binary.BigEndian, x)] for a [uint16]: the two
    bytes go to [w.Write], the count is dropped. *)
Definition binary_Write (x : Z) : M (option error) :=
  r ← Write (be16 x); mret r.2.
End Writer.

(** [w.Bytes()] *)
Definition Bytes : M (list byte) := λ buf, Ok (buf, buf).

(** [binary.BigEndian.PutUint16(pktBytes[2:], v)]: the slice expression and
    the bounds check of [PutUint16] panic unless there are four bytes;
    [pktBytes] shares the buffer's memory, so the buffer is patched. *)
Definition PutUint16_2 (v : Z) : M unit := λ buf,
  if (length buf <? 4)%nat then Panic
  else Ok (tt, <[3%nat := to_byte v]>
                 (<[2%nat := to_byte (Z.shiftr v 8)]> buf)).

(** ** The option map *)

(** [fields[k]]: a missing key gives the nil slice. *)
Definition field (fields : gmap byte (list byte)) (k : byte) : list byte :=
  default [] (fields !! k).

(** [keySlice.Less] *)
Definition Less (a b : byte) : bool := byte_val a <? byte_val b.

(** [sort.Sort(keys)] sorts in ascending order of [Less]; for slices of at
    most twelve elements it runs this insertion sort. *)
Fixpoint insert_key (k : byte) (sorted : list byte) : list byte :=
  match sorted with
  | [] => [k]
  | a :: rest => if Less k a then k :: a :: rest else a :: insert_key k rest
  end.

Definition sort_Sort (keys : list byte) : list byte :=
  foldl (λ sorted k, insert_key k sorted) [] keys.

(** ** Constants of the package *)

(** Modelled from the spec: the constant [preloginVERSION], not declared
    in this file; section 3 has "VERSION=0". *)
Definition preloginVERSION : byte := x00.

(** Modelled from the spec: the constant [preloginENCRYPTION], not declared
    in this file; section 3 has "ENCRYPTION=1". *)
Definition preloginENCRYPTION : byte := x01.

(** Modelled from the spec: the constant [preloginINSTOPT], not declared in
    this file; section 3 has "INSTOPT=2". *)
Definition preloginINSTOPT : byte := x02.

(** Modelled from the spec: the constant [preloginTHREADID], not declared
    in this file; section 3 has "THREADID=3". *)
Definition preloginTHREADID : byte := x03.

(** Modelled from the spec: the constant [preloginMARS], not declared in
    this file; section 3 has "MARS=4". *)
Definition preloginMARS : byte := x04.

(** Modelled from the spec: the constant [preloginTERMINATOR], not declared
    in this file; section 3 has "TERMINATOR=0xFF". *)
Definition preloginTERMINATOR : byte := xff.

(** Modelled from the spec: the constant [encryptNotSup], not declared in
    this file; section 8 has the option "ENCRYPTION:[0x02]". *)
Definition encryptNotSup : byte := x02.

(** ** WritePrelogin *)

Definition short_write : error :=
  errors_New "write method didn't write the whole value".

Section Encoder.
Context {W : WritePolicy}.
Variable fields : gmap byte (list byte).

(** Lines 42-58, "writing header": one descriptor per key. *)
Fixpoint write_descriptors (keys : list byte) (offset : Z) : M unit :=
  match keys with
  | [] => mret tt
  | k :: keys' =>
      err ← WriteByte k;
      check err;;
      err ← binary_Write offset;
      check err;;
      let v := field fields k in
      let size := uint16 (Z.of_nat (length v)) in
      err ← binary_Write size;
      check err;;
      write_descriptors keys' (uint16 (offset + size))
  end.

(** Lines 66-75, "writing values". *)
Fixpoint write_values (keys : list byte) : M unit :=
  match keys with
  | [] => mret tt
  | k :: keys' =>
      let v := field fields k in
      r ← Write v;
      check r.2;;
      if negb (r.1 =? length v)%nat then throw short_write
      else write_values keys'
  end.
End Encoder.

Section Prelogin.
Context {W : WritePolicy}.

(** The constant [PacketTypePreLogin] is not declared in this file either,
    and the spec gives the tag no number: it is a parameter. *)
Variable PacketTypePreLogin : byte.

(** Lines 17-24: the initial content of the buffer. *)
Definition header : list byte :=
  [PacketTypePreLogin; x01; x00; x00; x00; x00; x00; x00].

(** Lines 34-79, on the buffer [w]; [order] is the order in which
    [range fields] yields the keys, so that [keys] is [order] before the
    sort.  The slice [pktBytes] shares the memory of the buffer: what is
    sent is the content after the patch. *)
Definition assemble (fields : gmap byte (list byte)) (order : list byte)
    : M (list byte) :=
  let offset := uint16 (5 * Z.of_nat (size fields) + 1) in
  let keys := sort_Sort order in
  write_descriptors fields keys offset;;
  err ← WriteByte preloginTERMINATOR;
  check err;;
  write_values fields keys;;
  pktBytes ← Bytes;
  PutUint16_2 (uint16 (Z.of_nat (length pktBytes)));;
  Bytes.

(** The body of [WritePrelogin] for any option map. *)
Definition WritePreloginFields (conn : Conn)
    (fields : gmap byte (list byte)) (order : list byte)
    : list event * outcome :=
  match assemble fields order header with
  | Err e => ([], Returned (Some e))
  | Panic => ([], Panicked)
  | Ok (pktBytes, _) =>
      let err := (conn pktBytes).2 in
      ([Printf pktBytes; ConnWrite pktBytes], Returned (trace_Wrap <$> err))
  end.
End Prelogin.

(** Lines 26-32: the map literal that the function assigns to [fields]. *)
Definition prelogin_fields : gmap byte (list byte) :=
  <[preloginVERSION := [x00; x00; x00; x00; x00; x00]]>
  (<[preloginENCRYPTION := [encryptNotSup]]>
  (<[preloginINSTOPT := list_byte_of_string "teleport" ++ [x00]]>
  (<[preloginTHREADID := [x00; x00; x00; x00]]>
  (<[preloginMARS := [x00]]> ∅)))).

(** [WritePrelogin(conn)]: the buffer is a [bytes.Buffer]. *)
Definition WritePrelogin (PacketTypePreLogin : byte) (conn : Conn)
    (order : list byte) : list event * outcome :=
  WritePreloginFields (W := bytes_Buffer) PacketTypePreLogin conn
    prelogin_fields order.

(** ** The layout of a packet

    The order on kinds, the bytes that the two loops are meant to append,
    and the fields a reader finds in a packet. *)

Definition byte_le (a b : byte) : Prop := byte_val a ≤ byte_val b.
Definition byte_lt (a b : byte) : Prop := byte_val a < byte_val b.

#[global] Instance byte_lt_dec : RelDecision byte_lt :=
  λ a b, decide (byte_val a < byte_val b).

(** The keys of the map, in the order of [map_to_list]. *)
Definition map_keys (fields : gmap byte (list byte)) : list byte :=
  (map_to_list fields).*1.

(** [len(v)] of the value of kind [k]. *)
Definition value_len (fields : gmap byte (list byte)) (k : byte) : nat :=
  length (field fields k).

(** The concatenated values of [keys]. *)
Definition value_section (fields : gmap byte (list byte)) (keys : list byte)
    : list byte :=
  concat (field fields <$> keys).

(** The descriptor entries of [keys], the first with offset field
    [offset]. *)
Fixpoint descriptor_table (fields : gmap byte (list byte)) (keys : list byte)
    (offset : Z) : list byte :=
  match keys with
  | [] => []
  | k :: keys' =>
      let size := uint16 (Z.of_nat (value_len fields k)) in
      k :: be16 offset ++ be16 size
        ++ descriptor_table fields keys' (uint16 (offset + size))
  end.

(** The sum of the value lengths of [keys]. *)
Definition bytes_of (fields : gmap byte (list byte)) (keys : list byte) : nat :=
  sum_list (value_len fields <$> keys).

(** The running [offset] after the descriptors of [keys]. *)
Fixpoint running_offset (fields : gmap byte (list byte)) (keys : list byte)
    (offset : Z) : Z :=
  match keys with
  | [] => offset
  | k :: keys' =>
      running_offset fields keys'
        (uint16 (offset + uint16 (Z.of_nat (value_len fields k))))
  end.

(** The fields of a packet: descriptor [i] starts at byte [8 + 5 * i]. *)
Definition header_length (pkt : list byte) : option Z := u16_at pkt 2.
Definition descriptor_kind (pkt : list byte) (i : nat) : option byte :=
  pkt !! (8 + 5 * i)%nat.
Definition descriptor_offset (pkt : list byte) (i : nat) : option Z :=
  u16_at pkt (8 + 5 * i + 1).
Definition descriptor_length (pkt : list byte) (i : nat) : option Z :=
  u16_at pkt (8 + 5 * i + 3).

(** The packet for [keys] in this order: patched header, descriptor table,
    terminator, values. *)
Definition layout (PacketTypePreLogin : byte)
    (fields : gmap byte (list byte)) (keys : list byte) : list byte :=
  let body :=
    descriptor_table fields keys (uint16 (5 * Z.of_nat (size fields) + 1))
      ++ preloginTERMINATOR :: value_section fields keys in
  [PacketTypePreLogin; x01]
    ++ be16 (uint16 (Z.of_nat (8 + length body)))
    ++ [x00; x00; x00; x00] ++ body.

(** The sum of the value lengths of the options of kind smaller than [k]. *)
Definition bytes_below (fields : gmap byte (list byte)) (k : byte) : nat :=
  bytes_of fields (filter (λ k', byte_lt k' k) (map_keys fields)).

(** [WritePrelogin], with a [bytes.Buffer], prints [pkt], hands it to the
    connection in one call of [conn.Write] and returns what that call
    reports, wrapped. *)
Definition sends (PacketTypePreLogin : byte) (conn : Conn)
    (fields : gmap byte (list byte)) (order : list byte) (pkt : list byte)
    : Prop :=
  WritePreloginFields (W := bytes_Buffer) PacketTypePreLogin conn fields order
  = ([Printf pkt; ConnWrite pkt], Returned (trace_Wrap <$> (conn pkt).2)).

(** Two connections: one that takes every packet, one that is closed. *)
Definition conn_ok : Conn := λ p, (length p, None).
Definition conn_closed : Conn := λ _, (0%nat, Some (io_error 1)).

(** A buffer that takes at most eight bytes per write and reports the
    count, with no error: a writer that breaks the contract of
    [io.Writer]. *)
Definition short_Buffer : WritePolicy := λ _ p, (length p `min` 8, None)%nat.

(** Code that keeps the eight header bytes in the buffer and does not
    panic. *)
Definition safe {A} (m : M A) : Prop :=
  ∀ buf, (8 ≤ length buf)%nat →
    match m buf with
    | Ok (_, buf') => (8 ≤ length buf')%nat
    | Err _ => True
    | Panic => False
    end.

(** Code whose result is the final buffer. *)
Definition yields_buffer (m : M (list byte)) : Prop :=
  ∀ buf a buf', m buf = Ok (a, buf') → a = buf'.

(** ** Reading a packet

    The repository has no reader of this format; the spec asks for "the
    symmetric inverse of section 3's layout rules". *)

(** Modelled from the spec: the reader of the descriptor table, missing
    from the repository.  After the 8-byte header come 5-byte entries (kind,
    big-endian offset, big-endian length) up to the terminator. *)
Fixpoint parse_descriptors (table : list byte)
    : option (list (byte * nat * nat)) :=
  match table with
  | [] => None
  | k :: rest =>
      if decide (k = preloginTERMINATOR) then Some []
      else
        match rest with
        | oh :: ol :: lh :: ll :: rest' =>
            ds ← parse_descriptors rest';
            Some ((k, Z.to_nat (byte_val oh * 256 + byte_val ol),
                      Z.to_nat (byte_val lh * 256 + byte_val ll)) :: ds)
        | _ => None
        end
  end.

(** Modelled from the spec: the reader of one value, missing from the
    repository: the [len] bytes found [off] bytes after [base].  Section 3
    counts offsets from the start of the packet ([base = 0]), section 4.1
    from the start of the descriptor table ([base = 8]). *)
Definition read_value (base : nat) (pkt : list byte) (d : byte * nat * nat)
    : option (byte * list byte) :=
  let '(k, off, len) := d in
  if (base + off + len <=? length pkt)%nat
  then Some (k, take len (drop (base + off) pkt))
  else None.

(** Modelled from the spec: the decoder of a packet into its option map,
    missing from the repository. *)
Definition decode (base : nat) (pkt : list byte)
    : option (gmap byte (list byte)) :=
  ds ← parse_descriptors (drop 8 pkt);
  kvs ← mapM (read_value base pkt) ds;
  Some (list_to_map kvs).

(** The entries that [parse_descriptors] finds in [descriptor_table]. *)
Fixpoint entries (fields : gmap byte (list byte)) (keys : list byte)
    (offset : Z) : list (byte * nat * nat) :=
  match keys with
  | [] => []
  | k :: keys' =>
      let size := uint16 (Z.of_nat (value_len fields k)) in
      (k, Z.to_nat (uint16 offset), Z.to_nat size)
        :: entries fields keys' (uint16 (offset + size))
  end.

(** Two options, within the bounds of the data model, whose values take
    more than 65535 bytes together. *)
Definition fields_big : gmap byte (list byte) :=
  <[preloginVERSION := replicate (Z.to_nat 65535) x00]>
  (<[preloginENCRYPTION := [x07]]> ∅).

(** ** The methods of [keySlice] (lines 92-96) *)

(** [p[i]] for an [int] index [i]: an index out of range, a negative one
    included, is a run-time panic ([None]). *)
Definition index (p : list byte) (i : Z) : option byte :=
  if i <? 0 then None else p !! Z.to_nat i.

(** [p[i] = v] for an [int] index [i]: the slice after the assignment, or
    a panic ([None]) when the index is out of range. *)
Definition store (p : list byte) (i : Z) (v : byte) : option (list byte) :=
  if (i <? 0) || (Z.of_nat (length p) <=? i) then None
  else Some (<[Z.to_nat i := v]> p).

Module keySlice.

(** [func (p keySlice) Len() int] *)
Definition Len (p : list byte) : Z := Z.of_nat (length p).

(** [func (p keySlice) Less(i, j int) bool]: [p[i] < p[j]]. *)
Definition Less (p : list byte) (i j : Z) : res bool :=
  match index p i with
  | None => Panic
  | Some a =>
      match index p j with
      | None => Panic
      | Some b => Ok (byte_val a <? byte_val b)
      end
  end.

(** [func (p keySlice) Swap(i, j int)]: [p[i], p[j] = p[j], p[i]].  The
    right-hand side is read first, [p[j]] then [p[i]], so that an index out
    of range panics before anything is written; then [p[i]] and [p[j]] are
    assigned in this order.  The result is the slice after the call. *)
Definition Swap (p : list byte) (i j : Z) : res (list byte) :=
  match index p j with
  | None => Panic
  | Some b =>
      match index p i with
      | None => Panic
      | Some a => Ok (<[Z.to_nat j := a]> (<[Z.to_nat i := b]> p))
      end
  end.

(** [Swap] step by step, with the slice as it is when the call ends,
    normally or by a panic: the two reads of the right-hand side, [p[j]]
    then [p[i]], and then the two assignments from left to right, each with
    its own bounds check. *)
Definition Swap_steps (p : list byte) (i j : Z) : list byte * res unit :=
  match index p j with
  | None => (p, Panic)
  | Some b =>
      match index p i with
      | None => (p, Panic)
      | Some a =>
          match store p i b with
          | None => (p, Panic)
          | Some p1 =>
              match store p1 j a with
              | None => (p1, Panic)
              | Some p2 => (p2, Ok tt)
              end
          end
      end
  end.

End keySlice.

(** ** Writers in general *)

(** Code that only appends to the buffer. *)
Definition appends {A} (m : M A) : Prop :=
  ∀ buf a buf', m buf = Ok (a, buf') → ∃ t, buf' = buf ++ t.

(** An error that some write on the buffer reports. *)
Definition reported {W : WritePolicy} (e : error) : Prop :=
  ∃ buf p, (write_reports buf p).2 = Some e.

(** Code whose errors are those that the writes report, or the short-write
    error. *)
Definition passes_errors {W : WritePolicy} {A} (m : M A) : Prop :=
  ∀ buf e, m buf = Err e → e = short_write ∨ reported e.

(** * The bot configuration (package [config])

    The second source file holds the configuration of the bot: its types,
    [CheckAndSetDefaults], [GetDestinationByPath], [NewDefaultConfig] and
    [FromCLIConf].  [ReadConfigFromFile] and [ReadConfig] open a file and
    parse YAML; they are taken as given. *)

Module config.

(** [time.Duration] is an [int64] count of nanoseconds. *)
Definition Minute : Z := 60 * 1000000000.

Definition DefaultCertificateTTL : Z := 60 * Minute.
Definition DefaultRenewInterval : Z := 20 * Minute.
Definition DefaultJoinMethod : string := "token".

(** Errors: one that a function outside this file returns, or the record
    of a call [trace.Wrap(err)] or [trace.Wrap(err, message)] on an error;
    the message is the format with its arguments filled in.  [Wrap] and
    [WrapMsg] record the calls that the code makes; the library's
    [trace.Wrap] keeps an error that is a trace error already, so that the
    number of nested [Wrap]s is not the number of layers of the error. *)
Inductive error : Type :=
  | failure (code : nat)
  | Wrap (e : error)
  | WrapMsg (e : error) (message : string).

(** [e] is [e0] after it went through [trace.Wrap], once or more often. *)
Inductive wrapped : error → error → Prop :=
  | wrapped_Wrap (e0 : error) : wrapped (Wrap e0) e0
  | wrapped_WrapMsg (e0 : error) (message : string) :
      wrapped (WrapMsg e0 message) e0
  | wrapped_Wrap_more (e e0 : error) : wrapped e e0 → wrapped (Wrap e) e0
  | wrapped_WrapMsg_more (e e0 : error) (message : string) :
      wrapped e e0 → wrapped (WrapMsg e message) e0.

(** [log.Warnf(format, arg)] *)
Inductive log_event : Type :=
  | Warnf (format : string) (arg : string).

(** [s != ""] *)
Definition nonempty (s : string) : bool := negb (String.eqb s "").

Module CLIConf.
Record t : Type := mk {
  ConfigPath : string;
  Debug : bool;
  AuthServer : string;
  DataDir : string;
  DestinationDir : string;
  CAPins : list string;
  Token : string;
  RenewalInterval : Z;
  CertificateTTL : Z;
  JoinMethod : string;
  Oneshot : bool;
  InitDir : string;
  BotUser : string;
  ReaderUser : string;
  Owner : string;
  Clean : bool
}.
End CLIConf.

Module OnboardingConfig.
Record t : Type := mk {
  Token : string;
  CAPath : string;
  CAPins : list string;
  JoinMethod : string
}.
End OnboardingConfig.

(** The one field of [DestinationDirectory] that this file reads. *)
Module DestinationDirectory.
Record t : Type := mk { Path : string }.
End DestinationDirectory.

(** What this file uses and does not declare: the types [StorageConfig]
    and [DestinationConfig], the interface of the values that
    [GetDestination] returns, the two struct literals of [FromCLIConf], and
    the methods of the two types.  A method with a pointer receiver gives
    the value after the call, with its result. *)
Class Missing : Type := {
  StorageConfig : Type;
  DestinationConfig : Type;
  Destination : Type;
  (** [&StorageConfig{}] *)
  StorageConfig_zero : StorageConfig;
  (** [&StorageConfig{DestinationMixin: DestinationMixin{Directory:
      &DestinationDirectory{Path: path}}}] *)
  StorageConfig_directory : string → StorageConfig;
  (** [{DestinationMixin: DestinationMixin{Directory:
      &DestinationDirectory{Path: path}}}] *)
  DestinationConfig_directory : string → DestinationConfig;
  StorageConfig_CheckAndSetDefaults :
    StorageConfig → StorageConfig * option error;
  StorageConfig_GetDestination : StorageConfig → error + Destination;
  DestinationConfig_CheckAndSetDefaults :
    DestinationConfig → DestinationConfig * option error;
  DestinationConfig_GetDestination : DestinationConfig → error + Destination;
  (** the type assertion of [destImpl] to [*DestinationDirectory] *)
  as_DestinationDirectory : Destination → option DestinationDirectory.t
}.

Module BotConfig.
Section BotConfig.
Context {X : Missing}.

Record t : Type := mk {
  Onboarding : option OnboardingConfig.t;
  Storage : option StorageConfig;
  Destinations : list DestinationConfig;
  Debug : bool;
  AuthServer : string;
  CertificateTTL : Z;
  RenewalInterval : Z;
  Oneshot : bool
}.

(** [BotConfig{}] *)
Definition zero : t := mk None None [] false "" 0 0 false.

Definition set_Onboarding (v : option OnboardingConfig.t) (c : t) : t :=
  mk v (Storage c) (Destinations c) (Debug c) (AuthServer c)
    (CertificateTTL c) (RenewalInterval c) (Oneshot c).
Definition set_Storage (v : option StorageConfig) (c : t) : t :=
  mk (Onboarding c) v (Destinations c) (Debug c) (AuthServer c)
    (CertificateTTL c) (RenewalInterval c) (Oneshot c).
Definition set_Destinations (v : list DestinationConfig) (c : t) : t :=
  mk (Onboarding c) (Storage c) v (Debug c) (AuthServer c)
    (CertificateTTL c) (RenewalInterval c) (Oneshot c).
Definition set_Debug (v : bool) (c : t) : t :=
  mk (Onboarding c) (Storage c) (Destinations c) v (AuthServer c)
    (CertificateTTL c) (RenewalInterval c) (Oneshot c).
Definition set_AuthServer (v : string) (c : t) : t :=
  mk (Onboarding c) (Storage c) (Destinations c) (Debug c) v
    (CertificateTTL c) (RenewalInterval c) (Oneshot c).
Definition set_CertificateTTL (v : Z) (c : t) : t :=
  mk (Onboarding c) (Storage c) (Destinations c) (Debug c) (AuthServer c)
    v (RenewalInterval c) (Oneshot c).
Definition set_RenewalInterval (v : Z) (c : t) : t :=
  mk (Onboarding c) (Storage c) (Destinations c) (Debug c) (AuthServer c)
    (CertificateTTL c) v (Oneshot c).
Definition set_Oneshot (v : bool) (c : t) : t :=
  mk (Onboarding c) (Storage c) (Destinations c) (Debug c) (AuthServer c)
    (CertificateTTL c) (RenewalInterval c) v.

(** Lines 139-143: the loop over the destinations; it stops at the first
    one whose check fails, which has been through its check, and leaves the
    later ones alone. *)
Fixpoint check_destinations (dests : list DestinationConfig)
    : list DestinationConfig * option error :=
  match dests with
  | [] => ([], None)
  | dest :: rest =>
      let '(dest', err) := DestinationConfig_CheckAndSetDefaults dest in
      match err with
      | Some e => (dest' :: rest, Some (Wrap e))
      | None =>
          let '(rest', err') := check_destinations rest in
          (dest' :: rest', err')
      end
  end.

(** [func (conf *BotConfig) CheckAndSetDefaults() error]: the
    configuration after the call, and the result. *)
Definition CheckAndSetDefaults (conf : t) : t * option error :=
  let storage := default StorageConfig_zero (Storage conf) in
  let '(storage, err) := StorageConfig_CheckAndSetDefaults storage in
  let conf := set_Storage (Some storage) conf in
  match err with
  | Some e => (conf, Some (Wrap e))
  | None =>
      let '(dests, err) := check_destinations (Destinations conf) in
      let conf := set_Destinations dests conf in
      match err with
      | Some e => (conf, Some e)
      | None =>
          let conf :=
            if CertificateTTL conf =? 0
            then set_CertificateTTL DefaultCertificateTTL conf else conf in
          let conf :=
            if RenewalInterval conf =? 0
            then set_RenewalInterval DefaultRenewInterval conf else conf in
          (conf, None)
      end
  end.

(** [func (conf *BotConfig) GetDestinationByPath(path string)], which
    returns a [*DestinationConfig] and an [error]: the loop of lines 160-177
    and the final [return nil, nil]. *)
Fixpoint GetDestinationByPath_loop (dests : list DestinationConfig)
    (path : string) : error + option DestinationConfig :=
  match dests with
  | [] => inr None
  | dest :: rest =>
      match DestinationConfig_GetDestination dest with
      | inl err => inl (Wrap err)
      | inr destImpl =>
          match as_DestinationDirectory destImpl with
          | None => GetDestinationByPath_loop rest path
          | Some destDir =>
              if String.eqb (DestinationDirectory.Path destDir) path
              then inr (Some dest)
              else GetDestinationByPath_loop rest path
          end
      end
  end.

Definition GetDestinationByPath (conf : t) (path : string)
    : error + option DestinationConfig :=
  GetDestinationByPath_loop (Destinations conf) path.

End BotConfig.
End BotConfig.

Section Functions.
Context {X : Missing}.

(** [func NewDefaultConfig(authServer string)], which returns a
    [*BotConfig] and an [error]. *)
Definition NewDefaultConfig (authServer : string) : error + BotConfig.t :=
  let cfg := BotConfig.set_AuthServer authServer BotConfig.zero in
  match BotConfig.CheckAndSetDefaults cfg with
  | (_, Some err) => inl (Wrap err)
  | (cfg, None) => inr cfg
  end.

(** [ReadConfigFromFile] opens the file and parses it: what it returns for
    a path is given. *)
Variable ReadConfigFromFile : string → error + BotConfig.t.

(** The steps of [FromCLIConf] on [config], each with the warnings it
    logs. *)
Definition override_AuthServer (cf : CLIConf.t) (config : BotConfig.t)
    : list log_event * BotConfig.t :=
  if nonempty (CLIConf.AuthServer cf) then
    ((if nonempty (BotConfig.AuthServer config)
      then [Warnf "CLI parameters are overriding auth server configured in %s"
              (CLIConf.ConfigPath cf)]
      else []),
     BotConfig.set_AuthServer (CLIConf.AuthServer cf) config)
  else ([], config).

Definition override_CertificateTTL (cf : CLIConf.t) (config : BotConfig.t)
    : list log_event * BotConfig.t :=
  if negb (CLIConf.CertificateTTL cf =? 0) then
    ((if negb (BotConfig.CertificateTTL config =? 0)
      then [Warnf
              "CLI parameters are overriding certificate TTL configured in %s"
              (CLIConf.ConfigPath cf)]
      else []),
     BotConfig.set_CertificateTTL (CLIConf.CertificateTTL cf) config)
  else ([], config).

Definition override_RenewalInterval (cf : CLIConf.t) (config : BotConfig.t)
    : list log_event * BotConfig.t :=
  if negb (CLIConf.RenewalInterval cf =? 0) then
    ((if negb (BotConfig.RenewalInterval config =? 0)
      then [Warnf
              "CLI parameters are overriding renewal interval configured in %s"
              (CLIConf.ConfigPath cf)]
      else []),
     BotConfig.set_RenewalInterval (CLIConf.RenewalInterval cf) config)
  else ([], config).

Definition override_Storage (cf : CLIConf.t) (config : BotConfig.t)
    : list log_event * BotConfig.t :=
  if nonempty (CLIConf.DataDir cf) then
    ((match BotConfig.Storage config with
      | Some storage =>
          match StorageConfig_GetDestination storage with
          | inl _ =>
              [Warnf "CLI parameters are overriding storage location from %s"
                 (CLIConf.ConfigPath cf)]
          | inr _ => []
          end
      | None => []
      end),
     BotConfig.set_Storage
       (Some (StorageConfig_directory (CLIConf.DataDir cf))) config)
  else ([], config).

Definition override_Destinations (cf : CLIConf.t) (config : BotConfig.t)
    : list log_event * BotConfig.t :=
  if nonempty (CLIConf.DestinationDir cf) then
    ((if (0 <? length (BotConfig.Destinations config))%nat
      then [Warnf "CLI parameters are overriding destinations from %s"
              (CLIConf.ConfigPath cf)]
      else []),
     BotConfig.set_Destinations
       [DestinationConfig_directory (CLIConf.DestinationDir cf)] config)
  else ([], config).

Definition override_Onboarding (cf : CLIConf.t) (config : BotConfig.t)
    : list log_event * BotConfig.t :=
  if nonempty (CLIConf.Token cf) || (0 <? length (CLIConf.CAPins cf))%nat
     || nonempty (CLIConf.JoinMethod cf) then
    ((if match BotConfig.Onboarding config with
         | Some onboarding =>
             nonempty (OnboardingConfig.Token onboarding)
             || nonempty (OnboardingConfig.CAPath onboarding)
             || (0 <? length (OnboardingConfig.CAPins onboarding))%nat
         | None => false
         end
         || negb (String.eqb (CLIConf.JoinMethod cf) DefaultJoinMethod)
      then [Warnf "CLI parameters are overriding onboarding config from %s"
              (CLIConf.ConfigPath cf)]
      else []),
     BotConfig.set_Onboarding
       (Some (OnboardingConfig.mk (CLIConf.Token cf) "" (CLIConf.CAPins cf)
                (CLIConf.JoinMethod cf))) config)
  else ([], config).

(** Lines 213-292: the overrides, in their order. *)
Definition merge (cf : CLIConf.t) (config : BotConfig.t)
    : list log_event * BotConfig.t :=
  let config :=
    if CLIConf.Debug cf then BotConfig.set_Debug true config else config in
  let config :=
    if CLIConf.Oneshot cf then BotConfig.set_Oneshot true config else config in
  let '(log1, config) := override_AuthServer cf config in
  let '(log2, config) := override_CertificateTTL cf config in
  let '(log3, config) := override_RenewalInterval cf config in
  let '(log4, config) := override_Storage cf config in
  let '(log5, config) := override_Destinations cf config in
  let '(log6, config) := override_Onboarding cf config in
  (log1 ++ log2 ++ log3 ++ log4 ++ log5 ++ log6, config).

(** Lines 203-211: the configuration that [FromCLIConf] starts from, read
    from the file when a path is given and empty otherwise. *)
Definition loaded (cf : CLIConf.t) : error + BotConfig.t :=
  if nonempty (CLIConf.ConfigPath cf)
  then ReadConfigFromFile (CLIConf.ConfigPath cf)
  else inr BotConfig.zero.

(** [func FromCLIConf(cf *CLIConf)], which returns a [*BotConfig] and an
    [error]: the warnings logged and the result. *)
Definition FromCLIConf (cf : CLIConf.t)
    : list log_event * (error + BotConfig.t) :=
  match loaded cf with
  | inl err =>
      ([], inl (WrapMsg err ("loading bot config from path "
                             ++ CLIConf.ConfigPath cf)))
  | inr config =>
      let '(log, config) := merge cf config in
      match BotConfig.CheckAndSetDefaults config with
      | (_, Some err) => (log, inl (WrapMsg err "validing merged bot config"))
      | (config, None) => (log, inr config)
      end
  end.

End Functions.
End config.

(** An environment to run the configuration code in: storage and
    destinations are directories or nothing, the check of a storage fills
    in a default directory, the check of a destination fails on nothing. *)
Definition toy : config.Missing := {|
  config.StorageConfig := option string;
  config.DestinationConfig := option string;
  config.Destination := option string;
  config.StorageConfig_zero := None;
  config.StorageConfig_directory := Some;
  config.DestinationConfig_directory := Some;
  config.StorageConfig_CheckAndSetDefaults := λ s,
    (Some (default "/var/lib/teleport/bot"%string s), None);
  config.StorageConfig_GetDestination := λ s,
    match s with Some dir => inr (Some dir) | None => inl (config.failure 1) end;
  config.DestinationConfig_CheckAndSetDefaults := λ d,
    (d, match d with Some _ => None | None => Some (config.failure 2) end);
  config.DestinationConfig_GetDestination := λ d,
    match d with Some dir => inr (Some dir) | None => inl (config.failure 3) end;
  config.as_DestinationDirectory := λ x, config.DestinationDirectory.mk <$> x
|}.

(** A configuration file, and a file system that holds it as [bot.yaml]. *)
Definition toy_file : config.BotConfig.t (X := toy) :=
  config.BotConfig.mk (X := toy)
    (Some (config.OnboardingConfig.mk "file-token" "/etc/ca.pem" [] "token"))
    (Some (Some "/data"%string))
    [Some "/out/a"%string; Some "/out/b"%string]
    false "auth.example.com:3025" (90 * config.Minute) 0 true.

Definition toy_ReadConfigFromFile (path : string)
    : config.error + config.BotConfig.t (X := toy) :=
  if String.eqb path "bot.yaml" then inr toy_file else inl (config.failure 4).

(** The file with a destination that fails its check. *)
Definition toy_bad : config.BotConfig.t (X := toy) :=
  config.BotConfig.set_Destinations (X := toy)
    [Some "/out/a"%string; None; Some "/out/b"%string] toy_file.

(** Command lines: no flag at all; flags over the file [bot.yaml]; a file
    that is not there; a token and nothing else. *)
Definition cli_empty : config.CLIConf.t :=
  config.CLIConf.mk "" false "" "" "" [] "" 0 0 "" false "" "" "" "" false.

Definition cli_flags : config.CLIConf.t :=
  config.CLIConf.mk "bot.yaml" true "proxy.example.com:443" "" "/out/cli"
    ["sha256:abc"%string] "" (30 * config.Minute) 0 "" false "" "" "" "" false.

Definition cli_missing_file : config.CLIConf.t :=
  config.CLIConf.mk "nowhere.yaml" false "" "" "" [] "" 0 0 "" false
    "" "" "" "" false.

Definition cli_token : config.CLIConf.t :=
  config.CLIConf.mk "" false "" "" "" [] "secret" 0 0 "" false
    "" "" "" "" false.

(** What [FromCLIConf] makes of [cli_flags] and [bot.yaml]. *)
Definition toy_merged : config.BotConfig.t (X := toy) :=
  config.BotConfig.mk (X := toy)
    (Some (config.OnboardingConfig.mk "" "" ["sha256:abc"%string] ""))
    (Some (Some "/data"%string))
    [Some "/out/cli"%string]
    true "proxy.example.com:443" (90 * config.Minute) (30 * config.Minute)
    true.

(** The destination resolves without an error to a directory at [path]. *)
Definition directory_at {X : config.Missing} (dest : config.DestinationConfig)
    (path : string) : Prop :=
  ∃ destImpl destDir,
    config.DestinationConfig_GetDestination dest = inr destImpl
    ∧ config.as_DestinationDirectory destImpl = Some destDir
    ∧ config.DestinationDirectory.Path destDir = path.

(** One of the onboarding flags is given on the command line (line 280). *)
Definition onboarding_flags (cf : config.CLIConf.t) : bool :=
  config.nonempty (config.CLIConf.Token cf)
  || (0 <? length (config.CLIConf.CAPins cf))%nat
  || config.nonempty (config.CLIConf.JoinMethod cf).

(** * Properties *)

(** Linear arithmetic with division and remainder by constants. *)
Ltac zlia := Z.div_mod_to_equations; lia.

(** ** Bytes *)

Lemma byte_val_range (b : byte) : 0 ≤ byte_val b < 256.
Proof.
  unfold byte_val. pose proof (Byte.to_N_bounded b). lia.
Qed.

Lemma byte_val_inj (a b : byte) : byte_val a = byte_val b → a = b.
Proof.
  unfold byte_val. intros H.
  assert (Hn : Byte.to_N a = Byte.to_N b) by lia.
  assert (Hs : Some a = Some b)
    by (rewrite <- (Byte.of_to_N a), <- (Byte.of_to_N b); congruence).
  congruence.
Qed.

Lemma byte_val_to_byte (x : Z) : byte_val (to_byte x) = x mod 256.
Proof.
  unfold to_byte, byte_val.
  destruct (Byte.of_N (Z.to_N (x mod 256))) as [b|] eqn:E; simpl.
  - apply Byte.to_of_N in E. rewrite E. zlia.
  - apply Byte.of_N_None_iff in E. zlia.
Qed.

Lemma to_byte_byte_val (b : byte) : to_byte (byte_val b) = b.
Proof.
  apply byte_val_inj. rewrite byte_val_to_byte.
  pose proof (byte_val_range b). zlia.
Qed.

Lemma length_be16 (x : Z) : length (be16 x) = 2%nat.
Proof. reflexivity. Qed.

Lemma u16_at_be16 (p r : list byte) (x : Z) :
  u16_at (p ++ be16 x ++ r) (length p) = Some (uint16 x).
Proof.
  unfold u16_at, be16, uint16. simpl.
  rewrite (list_lookup_middle p _ _ (length p)) by done.
  rewrite lookup_app_r by lia.
  replace (S (length p) - length p)%nat with 1%nat by lia. simpl.
  rewrite !byte_val_to_byte, Z.shiftr_div_pow2 by lia.
  f_equal. change (2 ^ 8) with 256. zlia.
Qed.

(** ** Sorting the keys *)

#[global] Instance byte_le_antisymm : AntiSymm (=) byte_le.
Proof. intros a b Hab Hba. apply byte_val_inj. unfold byte_le in *. lia. Qed.

Lemma insert_key_Permutation (k : byte) (l : list byte) :
  insert_key k l ≡ₚ k :: l.
Proof.
  induction l as [|a l IH]; simpl; [done|].
  destruct (Less k a); [done|].
  rewrite IH. apply Permutation_swap.
Qed.

Lemma insert_key_sorted (k : byte) (l : list byte) :
  StronglySorted byte_le l → StronglySorted byte_le (insert_key k l).
Proof.
  induction 1 as [|a l Hs IH Ha]; simpl.
  - repeat constructor.
  - unfold Less. destruct (Z.ltb_spec (byte_val k) (byte_val a)) as [Hlt|Hge].
    + constructor; [by constructor|].
      constructor; [unfold byte_le; lia|].
      eapply Forall_impl; [exact Ha|]. unfold byte_le. intros; simpl in *; lia.
    + constructor; [done|].
      rewrite insert_key_Permutation. by constructor.
Qed.

Lemma foldl_insert_key_Permutation (l acc : list byte) :
  foldl (λ sorted k, insert_key k sorted) acc l ≡ₚ l ++ acc.
Proof.
  revert acc. induction l as [|k l IH]; intros acc; simpl; [done|].
  rewrite IH, insert_key_Permutation. by rewrite Permutation_middle.
Qed.

Lemma foldl_insert_key_sorted (l acc : list byte) :
  StronglySorted byte_le acc →
  StronglySorted byte_le (foldl (λ sorted k, insert_key k sorted) acc l).
Proof.
  revert acc. induction l as [|k l IH]; intros acc Hacc; simpl; [done|].
  by apply IH, insert_key_sorted.
Qed.

Lemma sort_Sort_Permutation (l : list byte) : sort_Sort l ≡ₚ l.
Proof.
  unfold sort_Sort. rewrite foldl_insert_key_Permutation. by rewrite app_nil_r.
Qed.

Lemma sort_Sort_sorted (l : list byte) : StronglySorted byte_le (sort_Sort l).
Proof. apply foldl_insert_key_sorted. constructor. Qed.

(** The result of the sort does not depend on the order of its input. *)
Lemma sort_Sort_order (l1 l2 : list byte) :
  l1 ≡ₚ l2 → sort_Sort l1 = sort_Sort l2.
Proof.
  intros Hp. apply (StronglySorted_unique byte_le); try apply sort_Sort_sorted.
  by rewrite !sort_Sort_Permutation.
Qed.

(** Without duplicates, ascending is strictly ascending. *)
Lemma sorted_NoDup_strict (l : list byte) :
  StronglySorted byte_le l → NoDup l → StronglySorted byte_lt l.
Proof.
  induction 1 as [|a l Hs IH Ha]; intros Hnd; [constructor|].
  apply NoDup_cons in Hnd as [Hnot Hnd].
  constructor; [by apply IH|].
  apply Forall_forall. intros b Hb.
  rewrite Forall_forall in Ha. specialize (Ha b Hb).
  unfold byte_le, byte_lt in *.
  destruct (decide (byte_val a = byte_val b)) as [E|]; [|lia].
  apply byte_val_inj in E. by subst.
Qed.

(** ** Running the code on a [bytes.Buffer] *)

Lemma bind_run {A B} (m : M A) (f : A → M B) (buf : list byte) :
  (m ≫= f) buf =
  match m buf with
  | Ok (a, buf') => f a buf'
  | Err e => Err e
  | Panic => Panic
  end.
Proof. reflexivity. Qed.

Section BytesBuffer.
Local Existing Instance bytes_Buffer.

Lemma Write_run (p buf : list byte) :
  Write p buf = Ok ((length p, None), buf ++ p).
Proof. unfold Write, write_reports, bytes_Buffer. simpl. by rewrite take_ge. Qed.

Lemma WriteByte_run (c : byte) (buf : list byte) :
  WriteByte c buf = Ok (None, buf ++ [c]).
Proof. unfold WriteByte. by rewrite bind_run, Write_run. Qed.

Lemma binary_Write_run (x : Z) (buf : list byte) :
  binary_Write x buf = Ok (None, buf ++ be16 x).
Proof. unfold binary_Write. by rewrite bind_run, Write_run. Qed.

(** One step of symbolic execution on the buffer. *)
Ltac run_step :=
  first [ rewrite bind_run | rewrite WriteByte_run | rewrite binary_Write_run
        | rewrite Write_run | progress cbn [check mret M_ret fst snd] ].

Lemma write_descriptors_run fields keys offset buf :
  write_descriptors fields keys offset buf
  = Ok (tt, buf ++ descriptor_table fields keys offset).
Proof.
  revert offset buf. induction keys as [|k keys IH]; intros offset buf.
  - simpl. by rewrite app_nil_r.
  - cbn [write_descriptors descriptor_table]. repeat run_step.
    rewrite IH. unfold value_len.
    by rewrite <- !app_assoc.
Qed.

Lemma write_values_run fields keys buf :
  write_values fields keys buf = Ok (tt, buf ++ value_section fields keys).
Proof.
  revert buf. induction keys as [|k keys IH]; intros buf.
  - simpl. by rewrite app_nil_r.
  - cbn [write_values]. repeat run_step.
    rewrite Nat.eqb_refl. cbn [negb].
    rewrite IH. unfold value_section. rewrite fmap_cons. simpl.
    by rewrite <- app_assoc.
Qed.

(** Lines 17-79 build exactly [layout] and never fail. *)
Lemma assemble_run P fields order :
  assemble fields order (header P)
  = Ok (layout P fields (sort_Sort order), layout P fields (sort_Sort order)).
Proof.
  unfold assemble.
  rewrite bind_run, write_descriptors_run. repeat run_step.
  rewrite write_values_run. repeat run_step.
  unfold Bytes at 1. repeat run_step.
  unfold PutUint16_2, header.
  rewrite (proj2 (Nat.ltb_ge _ _)) by (rewrite !length_app; simpl; lia).
  unfold Bytes, layout. simpl.
  rewrite <- !app_assoc. simpl.
  rewrite !length_app. simpl.
  do 4 f_equal.
Qed.
End BytesBuffer.

(** The packet of [WritePrelogin], byte by byte. *)
Example WritePrelogin_packet :
  WritePrelogin x12 conn_ok [x03; x00; x04; x02; x01]
  = let pkt :=
      [x12; x01; x00; x37; x00; x00; x00; x00;
       x00; x00; x1a; x00; x06;
       x01; x00; x20; x00; x01;
       x02; x00; x21; x00; x09;
       x03; x00; x2a; x00; x04;
       x04; x00; x2e; x00; x01;
       xff;
       x00; x00; x00; x00; x00; x00;
       x02;
       x74; x65; x6c; x65; x70; x6f; x72; x74; x00;
       x00; x00; x00; x00;
       x00] in
    ([Printf pkt; ConnWrite pkt], Returned None).
Proof. reflexivity. Qed.

(** An error of the connection comes back wrapped. *)
Example WritePrelogin_closed :
  (WritePrelogin x12 conn_closed [x03; x00; x04; x02; x01]).2
  = Returned (Some (trace_Wrap (io_error 1))).
Proof. reflexivity. Qed.

(** The empty map gives the header and the terminator, of length 9. *)
Example WritePreloginFields_empty :
  WritePreloginFields (W := bytes_Buffer) x12 conn_ok ∅ []
  = let pkt := [x12; x01; x00; x09; x00; x00; x00; x00; xff] in
    ([Printf pkt; ConnWrite pkt], Returned None).
Proof. reflexivity. Qed.

Lemma WritePreloginFields_run P conn fields order :
  WritePreloginFields (W := bytes_Buffer) P conn fields order
  = let pkt := layout P fields (sort_Sort order) in
    ([Printf pkt; ConnWrite pkt], Returned (trace_Wrap <$> (conn pkt).2)).
Proof. unfold WritePreloginFields. by rewrite assemble_run. Qed.

(** ** The keys of the map *)

Lemma NoDup_map_keys fields : NoDup (map_keys fields).
Proof. apply NoDup_fst_map_to_list. Qed.

Lemma length_map_keys fields : length (map_keys fields) = size fields.
Proof. unfold map_keys. by rewrite length_fmap, length_map_to_list. Qed.

Lemma elem_of_map_keys fields k : k ∈ map_keys fields ↔ is_Some (fields !! k).
Proof.
  unfold map_keys. rewrite list_elem_of_fmap. split.
  - intros [[k' v] [-> Hin]]. apply elem_of_map_to_list in Hin. by exists v.
  - intros [v Hv]. exists (k, v). split; [done|]. by apply elem_of_map_to_list.
Qed.

(** What [sort.Sort] leaves in [keys] when [order] enumerates the map. *)
Lemma sorted_keys_facts fields order :
  order ≡ₚ map_keys fields →
  length (sort_Sort order) = size fields
  ∧ NoDup (sort_Sort order)
  ∧ StronglySorted byte_lt (sort_Sort order)
  ∧ ∀ k, k ∈ sort_Sort order ↔ is_Some (fields !! k).
Proof.
  intros Hp.
  assert (Hs : sort_Sort order ≡ₚ map_keys fields)
    by (by rewrite sort_Sort_Permutation).
  assert (Hnd : NoDup (sort_Sort order))
    by (rewrite Hs; apply NoDup_map_keys).
  split_and!.
  - by rewrite Hs, length_map_keys.
  - done.
  - apply sorted_NoDup_strict; [apply sort_Sort_sorted|done].
  - intros k. rewrite Hs. apply elem_of_map_keys.
Qed.

(** ** The descriptor table *)

Lemma length_descriptor_table fields keys offset :
  length (descriptor_table fields keys offset) = (5 * length keys)%nat.
Proof.
  revert offset. induction keys as [|k keys IH]; intros offset; [done|].
  cbn [descriptor_table]. cbn [length]. rewrite !length_app, IH, !length_be16.
  simpl. lia.
Qed.

Lemma descriptor_table_app fields ks1 ks2 offset :
  descriptor_table fields (ks1 ++ ks2) offset
  = descriptor_table fields ks1 offset
    ++ descriptor_table fields ks2 (running_offset fields ks1 offset).
Proof.
  revert offset. induction ks1 as [|k ks1 IH]; intros offset; [done|].
  cbn [app descriptor_table running_offset]. rewrite IH.
  by rewrite <- !app_assoc.
Qed.

Lemma running_offset_uint16 fields keys (o : Z) :
  running_offset fields keys (uint16 o)
  = uint16 (o + Z.of_nat (bytes_of fields keys)).
Proof.
  revert o. induction keys as [|k keys IH]; intros o.
  - unfold bytes_of. simpl. unfold uint16. zlia.
  - cbn [running_offset]. rewrite IH. unfold bytes_of. rewrite fmap_cons.
    cbn [sum_list]. unfold uint16, id. zlia.
Qed.

Lemma length_value_section fields keys :
  length (value_section fields keys) = bytes_of fields keys.
Proof.
  unfold value_section, bytes_of.
  induction keys as [|k keys IH]; [done|].
  rewrite !fmap_cons. cbn [concat sum_list]. rewrite length_app, IH. done.
Qed.

Lemma value_section_app fields ks1 ks2 :
  value_section fields (ks1 ++ ks2)
  = value_section fields ks1 ++ value_section fields ks2.
Proof. unfold value_section. by rewrite fmap_app, concat_app. Qed.

Lemma bytes_of_app fields ks1 ks2 :
  bytes_of fields (ks1 ++ ks2) = (bytes_of fields ks1 + bytes_of fields ks2)%nat.
Proof. by rewrite <- !length_value_section, value_section_app, length_app. Qed.

Lemma length_layout P fields keys :
  length (layout P fields keys)
  = (8 + (5 * length keys + 1 + bytes_of fields keys))%nat.
Proof.
  unfold layout. cbn [app length be16].
  rewrite length_app, length_descriptor_table. cbn [length].
  rewrite length_value_section. lia.
Qed.

(** ** Reading a packet back *)

Lemma lookup_after (p r : list byte) (x : byte) (i : nat) :
  i = length p → (p ++ [x] ++ r) !! i = Some x.
Proof. intros ->. by apply list_lookup_middle. Qed.

Lemma u16_after (p r : list byte) (x : Z) (i : nat) :
  i = length p → u16_at (p ++ be16 x ++ r) i = Some (uint16 x).
Proof. intros ->. apply u16_at_be16. Qed.

Lemma take_drop_after (p v r : list byte) (i n : nat) :
  i = length p → n = length v → take n (drop i (p ++ v ++ r)) = v.
Proof. intros -> ->. by rewrite drop_app_length, take_app_length. Qed.

(** The packet around the descriptor and the value of one key. *)
Lemma layout_decompose P fields ks1 k ks2 :
  ∃ hdr : list byte,
    length hdr = 8%nat
    ∧ layout P fields (ks1 ++ k :: ks2)
      = hdr
        ++ descriptor_table fields ks1 (uint16 (5 * Z.of_nat (size fields) + 1))
        ++ [k]
        ++ be16 (uint16 (5 * Z.of_nat (size fields) + 1
                         + Z.of_nat (bytes_of fields ks1)))
        ++ be16 (uint16 (Z.of_nat (value_len fields k)))
        ++ descriptor_table fields ks2
             (uint16 (5 * Z.of_nat (size fields) + 1
                      + Z.of_nat (bytes_of fields (ks1 ++ [k]))))
        ++ [preloginTERMINATOR]
        ++ value_section fields ks1
        ++ field fields k
        ++ value_section fields ks2.
Proof.
  eexists [_; _; _; _; _; _; _; _]. split; [done|].
  unfold layout.
  rewrite descriptor_table_app. cbn [descriptor_table].
  rewrite <- running_offset_uint16.
  replace (uint16 (_ + uint16 (Z.of_nat (value_len fields k))))
    with (running_offset fields (ks1 ++ [k])
            (uint16 (5 * Z.of_nat (size fields) + 1))).
  2:{ clear. generalize (uint16 (5 * Z.of_nat (size fields) + 1)).
      induction ks1 as [|a ks1 IH]; intros o; [done|]. apply IH. }
  rewrite !running_offset_uint16.
  rewrite (value_section_app _ ks1 (k :: ks2)).
  change (value_section fields (k :: ks2))
    with (field fields k ++ value_section fields ks2).
  cbn [be16 app]. rewrite <- !app_assoc. cbn [app]. reflexivity.
Qed.

Section OneOption.
Variables (P : byte) (fields : gmap byte (list byte)).
Variables (ks1 ks2 : list byte) (k : byte).

Lemma layout_descriptor_kind :
  descriptor_kind (layout P fields (ks1 ++ k :: ks2)) (length ks1) = Some k.
Proof.
  destruct (layout_decompose P fields ks1 k ks2) as (hdr & Hh & ->).
  unfold descriptor_kind. rewrite (app_assoc hdr).
  apply lookup_after. rewrite length_app, length_descriptor_table. lia.
Qed.

Lemma layout_descriptor_offset :
  descriptor_offset (layout P fields (ks1 ++ k :: ks2)) (length ks1)
  = Some (uint16 (5 * Z.of_nat (size fields) + 1
                  + Z.of_nat (bytes_of fields ks1))).
Proof.
  destruct (layout_decompose P fields ks1 k ks2) as (hdr & Hh & ->).
  unfold descriptor_offset.
  rewrite (app_assoc hdr), (app_assoc (hdr ++ _)).
  rewrite u16_after.
  - unfold uint16. f_equal. zlia.
  - rewrite !length_app, length_descriptor_table. simpl. lia.
Qed.

Lemma layout_descriptor_length :
  descriptor_length (layout P fields (ks1 ++ k :: ks2)) (length ks1)
  = Some (uint16 (Z.of_nat (value_len fields k))).
Proof.
  destruct (layout_decompose P fields ks1 k ks2) as (hdr & Hh & ->).
  unfold descriptor_length.
  rewrite (app_assoc hdr), (app_assoc (hdr ++ _)), (app_assoc ((hdr ++ _) ++ _)).
  rewrite u16_after.
  - unfold uint16. f_equal. zlia.
  - rewrite !length_app, length_descriptor_table, length_be16.
    simpl. lia.
Qed.

Lemma layout_value :
  take (value_len fields k)
    (drop (8 + (5 * length (ks1 ++ k :: ks2) + 1 + bytes_of fields ks1))
       (layout P fields (ks1 ++ k :: ks2)))
  = field fields k.
Proof.
  destruct (layout_decompose P fields ks1 k ks2) as (hdr & Hh & ->).
  rewrite (app_assoc hdr), (app_assoc (hdr ++ _)), (app_assoc ((hdr ++ _) ++ _)),
    (app_assoc (((hdr ++ _) ++ _) ++ _)),
    (app_assoc ((((hdr ++ _) ++ _) ++ _) ++ _)),
    (app_assoc (((((hdr ++ _) ++ _) ++ _) ++ _) ++ _)),
    (app_assoc ((((((hdr ++ _) ++ _) ++ _) ++ _) ++ _) ++ _)).
  apply take_drop_after; [|done].
  rewrite !length_app, !length_descriptor_table, !length_be16,
    length_value_section.
  simpl. lia.
Qed.

End OneOption.

Lemma layout_terminator P fields keys :
  layout P fields keys !! (8 + 5 * length keys)%nat = Some preloginTERMINATOR.
Proof.
  unfold layout. cbn [be16 app].
  change (?a :: ?b :: ?c :: ?d :: ?e :: ?f :: ?g :: ?h :: ?t ++ _ :: ?r)
    with ([a; b; c; d; e; f; g; h] ++ t ++ [preloginTERMINATOR] ++ r).
  rewrite app_assoc. apply lookup_after.
  cbn [app length]. rewrite length_descriptor_table. lia.
Qed.

Lemma layout_values P fields keys :
  drop (8 + 5 * length keys + 1) (layout P fields keys)
  = value_section fields keys.
Proof.
  unfold layout. cbn [be16 app].
  change (?a :: ?b :: ?c :: ?d :: ?e :: ?f :: ?g :: ?h :: ?t ++ _ :: ?r)
    with ([a; b; c; d; e; f; g; h] ++ t ++ [preloginTERMINATOR] ++ r).
  rewrite app_assoc, app_assoc. apply drop_app_length'.
  rewrite !length_app. cbn [length]. rewrite length_descriptor_table. lia.
Qed.

(** ** The claims on the layout *)

Lemma sends_layout P conn fields order :
  sends P conn fields order (layout P fields (sort_Sort order)).
Proof. unfold sends. by rewrite WritePreloginFields_run. Qed.

(** C2: for the option at position [N] in ascending-kind order, the offset
    field of its descriptor is [5 * count + 1] plus the sum of the value
    lengths of the options before it in sorted order, [count] being the
    number of options, whenever that number fits the 16-bit field. *)
Theorem descriptor_offset_formula P conn fields order (N : nat) (k : byte) :
  order ≡ₚ map_keys fields →
  sort_Sort order !! N = Some k →
  5 * Z.of_nat (size fields) + 1
    + Z.of_nat (bytes_of fields (take N (sort_Sort order))) ≤ 65535 →
  ∃ pkt, sends P conn fields order pkt
    ∧ descriptor_kind pkt N = Some k
    ∧ descriptor_offset pkt N
      = Some (5 * Z.of_nat (size fields) + 1
              + Z.of_nat (bytes_of fields (take N (sort_Sort order)))).
Proof.
  intros _ HN Hfit. exists (layout P fields (sort_Sort order)).
  split; [apply sends_layout|].
  apply list_elem_of_split_length in HN as (ks1 & ks2 & E & ->).
  rewrite E in *. rewrite take_app_length in *.
  split; [apply layout_descriptor_kind|].
  rewrite layout_descriptor_offset. f_equal. unfold uint16. zlia.
Qed.

Lemma descriptor_offset_formula_witness :
  [x03; x00; x04; x02; x01] ≡ₚ map_keys prelogin_fields
  ∧ ∃ pkt, sends x12 conn_ok prelogin_fields [x03; x00; x04; x02; x01] pkt
    ∧ descriptor_kind pkt 2 = Some preloginINSTOPT
    ∧ descriptor_offset pkt 2
      = Some (5 * Z.of_nat (size prelogin_fields) + 1
              + Z.of_nat (bytes_of prelogin_fields
                            (take 2 (sort_Sort [x03; x00; x04; x02; x01])))).
Proof.
  assert (Hp : [x03; x00; x04; x02; x01] ≡ₚ map_keys prelogin_fields)
    by (refine (bool_decide_unpack _ _); vm_compute; exact I).
  split; [exact Hp|].
  apply (descriptor_offset_formula x12 conn_ok prelogin_fields _ 2
           preloginINSTOPT Hp).
  - reflexivity.
  - vm_compute. discriminate.
Defined.

(** C3: bytes 2-3 of the header hold, big-endian, the length of the whole
    assembled packet (header, descriptor table, terminator, values),
    whenever that length fits the 16-bit field. *)
Theorem header_length_is_packet_length P conn fields order :
  order ≡ₚ map_keys fields →
  8 + 5 * Z.of_nat (size fields) + 1
    + Z.of_nat (bytes_of fields (map_keys fields)) ≤ 65535 →
  ∃ pkt, sends P conn fields order pkt
    ∧ header_length pkt = Some (Z.of_nat (length pkt))
    ∧ length pkt
      = (8 + 5 * size fields + 1 + bytes_of fields (map_keys fields))%nat.
Proof.
  intros Hp Hfit. exists (layout P fields (sort_Sort order)).
  split; [apply sends_layout|].
  destruct (sorted_keys_facts fields order Hp) as (Hlen & _ & _ & _).
  assert (Hb : bytes_of fields (sort_Sort order)
               = bytes_of fields (map_keys fields)).
  { unfold bytes_of. by rewrite sort_Sort_Permutation, Hp. }
  assert (HL : length (layout P fields (sort_Sort order))
          = (8 + 5 * size fields + 1 + bytes_of fields (map_keys fields))%nat)
    by (rewrite length_layout, Hlen, Hb; lia).
  split; [|exact HL].
  rewrite HL. unfold header_length, layout.
  change ([P; x01] ++ ?b ++ ?r) with ([P; x01] ++ b ++ r).
  rewrite (u16_after [P; x01]) by done.
  cbn [length app]. rewrite length_app, length_descriptor_table. cbn [length].
  rewrite length_value_section, Hlen, Hb. unfold uint16. f_equal. zlia.
Qed.

Lemma header_length_is_packet_length_witness :
  ∃ pkt, sends x12 conn_ok prelogin_fields [x00; x01; x02; x03; x04] pkt
    ∧ header_length pkt = Some (Z.of_nat (length pkt))
    ∧ length pkt
      = (8 + 5 * size prelogin_fields + 1
         + bytes_of prelogin_fields (map_keys prelogin_fields))%nat.
Proof.
  apply (header_length_is_packet_length x12 conn_ok prelogin_fields).
  - refine (bool_decide_unpack _ _); vm_compute; exact I.
  - vm_compute. discriminate.
Defined.

(** C4: the descriptor entries are in strictly ascending order of kind, the
    values are concatenated in that same order, the terminator comes right
    after the last descriptor entry, and no descriptor entry has the
    terminator as its kind (for a map without the terminator key). *)
Theorem packet_order_and_terminator P conn fields order :
  order ≡ₚ map_keys fields →
  fields !! preloginTERMINATOR = None →
  ∃ pkt keys, sends P conn fields order pkt
    ∧ keys ≡ₚ map_keys fields
    ∧ StronglySorted byte_lt keys
    ∧ (∀ i k, keys !! i = Some k → descriptor_kind pkt i = Some k)
    ∧ (∀ i, (i < length keys)%nat →
         descriptor_kind pkt i ≠ Some preloginTERMINATOR)
    ∧ pkt !! (8 + 5 * length keys)%nat = Some preloginTERMINATOR
    ∧ drop (8 + 5 * length keys + 1) pkt = value_section fields keys.
Proof.
  intros Hp Hterm.
  exists (layout P fields (sort_Sort order)), (sort_Sort order).
  destruct (sorted_keys_facts fields order Hp) as (Hlen & Hnd & Hsorted & Hin).
  assert (Hkind : ∀ i k, sort_Sort order !! i = Some k →
            descriptor_kind (layout P fields (sort_Sort order)) i = Some k).
  { intros i k Hi.
    apply list_elem_of_split_length in Hi as (ks1 & ks2 & E & ->).
    rewrite E. apply layout_descriptor_kind. }
  split_and!.
  - apply sends_layout.
  - by rewrite sort_Sort_Permutation.
  - done.
  - done.
  - intros i Hi. destruct (lookup_lt_is_Some_2 _ _ Hi) as [k Hk].
    rewrite (Hkind i k Hk). intros [= ->].
    assert (Hsome : is_Some (fields !! preloginTERMINATOR)).
    { apply Hin. by eapply list_elem_of_lookup_2. }
    rewrite Hterm in Hsome. by destruct Hsome.
  - apply layout_terminator.
  - apply layout_values.
Qed.

Lemma packet_order_and_terminator_witness :
  ∃ pkt keys, sends x12 conn_ok prelogin_fields [x04; x03; x02; x01; x00] pkt
    ∧ keys ≡ₚ map_keys prelogin_fields
    ∧ StronglySorted byte_lt keys
    ∧ (∀ i k, keys !! i = Some k → descriptor_kind pkt i = Some k)
    ∧ (∀ i, (i < length keys)%nat →
         descriptor_kind pkt i ≠ Some preloginTERMINATOR)
    ∧ pkt !! (8 + 5 * length keys)%nat = Some preloginTERMINATOR
    ∧ drop (8 + 5 * length keys + 1) pkt = value_section prelogin_fields keys.
Proof.
  apply (packet_order_and_terminator x12 conn_ok prelogin_fields).
  - refine (bool_decide_unpack _ _); vm_compute; exact I.
  - reflexivity.
Defined.

(** C9: the packet does not depend on the order in which the map is
    iterated: two runs on the same map, whatever orders [range] yields,
    send the same bytes and end the same way. *)
Theorem encoding_deterministic P conn fields order1 order2 :
  order1 ≡ₚ map_keys fields →
  order2 ≡ₚ map_keys fields →
  (∃ pkt, sends P conn fields order1 pkt ∧ sends P conn fields order2 pkt)
  ∧ WritePreloginFields (W := bytes_Buffer) P conn fields order1
    = WritePreloginFields (W := bytes_Buffer) P conn fields order2.
Proof.
  intros H1 H2.
  assert (E : sort_Sort order1 = sort_Sort order2)
    by (apply sort_Sort_order; by rewrite H1, H2).
  split.
  - exists (layout P fields (sort_Sort order1)). split; [apply sends_layout|].
    rewrite E. apply sends_layout.
  - by rewrite !WritePreloginFields_run, E.
Qed.

Lemma encoding_deterministic_witness :
  (∃ pkt, sends x12 conn_ok prelogin_fields [x03; x00; x04; x02; x01] pkt
          ∧ sends x12 conn_ok prelogin_fields [x01; x04; x00; x03; x02] pkt)
  ∧ WritePreloginFields (W := bytes_Buffer) x12 conn_ok prelogin_fields
      [x03; x00; x04; x02; x01]
    = WritePreloginFields (W := bytes_Buffer) x12 conn_ok prelogin_fields
      [x01; x04; x00; x03; x02].
Proof.
  apply (encoding_deterministic x12 conn_ok prelogin_fields).
  - refine (bool_decide_unpack _ _); vm_compute; exact I.
  - refine (bool_decide_unpack _ _); vm_compute; exact I.
Defined.

(** C10: with a [bytes.Buffer] none of the error branches of the buffer
    construction is taken: lines 17-79 always complete with the packet, the
    packet goes to [conn.Write], and [WritePrelogin] returns nil exactly
    when that one call reports no error. *)
Theorem returns_nil_iff_conn_write_succeeds P conn fields order :
  ∃ pkt,
    assemble (W := bytes_Buffer) fields order (header P) = Ok (pkt, pkt)
    ∧ WritePreloginFields (W := bytes_Buffer) P conn fields order
      = ([Printf pkt; ConnWrite pkt], Returned (trace_Wrap <$> (conn pkt).2))
    ∧ ((WritePreloginFields (W := bytes_Buffer) P conn fields order).2
       = Returned None ↔ (conn pkt).2 = None).
Proof.
  exists (layout P fields (sort_Sort order)).
  rewrite WritePreloginFields_run. cbn [snd].
  split_and!; [apply assemble_run|done|].
  destruct (conn _).2; simpl; split; congruence.
Qed.

(** ** Offsets count from the descriptor table *)

Lemma filter_Forall_all {A} (Q : A → Prop) `{∀ x, Decision (Q x)}
    (l : list A) :
  Forall Q l → filter Q l = l.
Proof.
  induction 1 as [|x l Hx _ IH]; [done|].
  by rewrite filter_cons_True, IH.
Qed.

Lemma filter_Forall_none {A} (Q : A → Prop) `{∀ x, Decision (Q x)}
    (l : list A) :
  Forall (λ x, ¬ Q x) l → filter Q l = [].
Proof.
  induction 1 as [|x l Hx _ IH]; [done|].
  by rewrite filter_cons_False, IH.
Qed.

(** In a strictly ascending list, the keys below [k] are those before it. *)
Lemma filter_below_sorted (ks1 ks2 : list byte) (k : byte) :
  StronglySorted byte_lt (ks1 ++ k :: ks2) →
  filter (λ k', byte_lt k' k) (ks1 ++ k :: ks2) = ks1.
Proof.
  intros Hs. apply StronglySorted_app in Hs as (Hlt & _ & Hk).
  apply StronglySorted_cons in Hk as [Hk _].
  rewrite filter_app, filter_cons_False by (unfold byte_lt; lia).
  rewrite filter_Forall_all, filter_Forall_none, app_nil_r; [done| |].
  - eapply Forall_impl; [exact Hk|]. unfold byte_lt. intros; simpl in *; lia.
  - apply Forall_forall. intros a Ha. apply Hlt; [done|]. by left.
Qed.

Lemma bytes_below_sorted fields order ks1 ks2 k :
  order ≡ₚ map_keys fields →
  sort_Sort order = ks1 ++ k :: ks2 →
  bytes_below fields k = bytes_of fields ks1.
Proof.
  intros Hp E.
  destruct (sorted_keys_facts fields order Hp) as (_ & _ & Hsorted & _).
  unfold bytes_below, bytes_of.
  rewrite <- Hp, <- (sort_Sort_Permutation order), E.
  rewrite E in Hsorted. by rewrite filter_below_sorted.
Qed.

(** C1, as the code has it: the offset field of every option counts from the
    start of the descriptor table, byte 8 of the packet: it is the byte
    count of the descriptor table, the terminator and the values of the
    options of smaller kind, without the 8-byte header, and the value lies
    that many bytes after the header (whenever the count fits 16 bits). *)
Theorem descriptor_offset_from_table_start P conn fields order (i : nat)
    (k : byte) :
  order ≡ₚ map_keys fields →
  sort_Sort order !! i = Some k →
  5 * Z.of_nat (size fields) + 1 + Z.of_nat (bytes_below fields k) ≤ 65535 →
  ∃ pkt off, sends P conn fields order pkt
    ∧ descriptor_kind pkt i = Some k
    ∧ descriptor_offset pkt i = Some off
    ∧ off = 5 * Z.of_nat (size fields) + 1 + Z.of_nat (bytes_below fields k)
    ∧ take (value_len fields k) (drop (8 + Z.to_nat off) pkt)
      = field fields k.
Proof.
  intros Hp Hi Hfit.
  exists (layout P fields (sort_Sort order)),
    (5 * Z.of_nat (size fields) + 1 + Z.of_nat (bytes_below fields k)).
  destruct (sorted_keys_facts fields order Hp) as (Hlen & _ & _ & _).
  apply list_elem_of_split_length in Hi as (ks1 & ks2 & E & ->).
  rewrite (bytes_below_sorted fields order ks1 ks2 k Hp E) in *.
  split; [apply sends_layout|]. rewrite E in *.
  split_and!.
  - apply layout_descriptor_kind.
  - rewrite layout_descriptor_offset. f_equal. unfold uint16. zlia.
  - done.
  - rewrite <- (layout_value P fields ks1 ks2 k). do 2 f_equal. lia.
Qed.

Lemma descriptor_offset_from_table_start_witness :
  ∃ pkt off, sends x12 conn_ok prelogin_fields [x02; x04; x00; x01; x03] pkt
    ∧ descriptor_kind pkt 3 = Some preloginTHREADID
    ∧ descriptor_offset pkt 3 = Some off
    ∧ off = 5 * Z.of_nat (size prelogin_fields) + 1
            + Z.of_nat (bytes_below prelogin_fields preloginTHREADID)
    ∧ take (value_len prelogin_fields preloginTHREADID)
        (drop (8 + Z.to_nat off) pkt)
      = field prelogin_fields preloginTHREADID.
Proof.
  apply (descriptor_offset_from_table_start x12 conn_ok prelogin_fields).
  - refine (bool_decide_unpack _ _); vm_compute; exact I.
  - reflexivity.
  - vm_compute. discriminate.
Defined.

(** C1 as stated fails on the packet of [WritePrelogin]: the descriptor of
    INSTOPT holds 33, its value starts at byte 41 of the packet, and 41 is
    the count that includes the 8-byte header. *)
Lemma offset_not_from_packet_start :
  ∃ pkt,
    WritePrelogin x12 conn_ok [x03; x00; x04; x02; x01]
    = ([Printf pkt; ConnWrite pkt], Returned None)
    ∧ descriptor_kind pkt 2 = Some preloginINSTOPT
    ∧ descriptor_offset pkt 2 = Some 33
    ∧ take 9 (drop 41 pkt) = field prelogin_fields preloginINSTOPT
    ∧ take 9 (drop 33 pkt) ≠ field prelogin_fields preloginINSTOPT
    ∧ 8 + 5 * Z.of_nat (size prelogin_fields) + 1
        + Z.of_nat (bytes_below prelogin_fields preloginINSTOPT) = 41
    ∧ descriptor_offset pkt 2
      ≠ Some (8 + 5 * Z.of_nat (size prelogin_fields) + 1
              + Z.of_nat (bytes_below prelogin_fields preloginINSTOPT)).
Proof.
  eexists. split; [vm_compute; reflexivity|].
  split_and!; vm_compute; congruence.
Qed.

(** ** Any writer: errors and panics *)

Lemma safe_ret {A} (a : A) : safe (mret a).
Proof. intros buf Hb. exact Hb. Qed.

Lemma safe_throw {A} (e : error) : safe (throw (A := A) e).
Proof. intros buf Hb. exact I. Qed.

Lemma safe_bind {A B} (m : M A) (f : A → M B) :
  safe m → (∀ a, safe (f a)) → safe (m ≫= f).
Proof.
  intros Hm Hf buf Hb. rewrite bind_run. specialize (Hm buf Hb).
  destruct (m buf) as [[a buf']| |]; [by apply Hf|done|done].
Qed.

Lemma safe_check (err : option error) : safe (check err).
Proof. destruct err; [apply safe_throw|apply safe_ret]. Qed.

Lemma yields_buffer_bind {A} (m : M A) (f : A → M (list byte)) :
  (∀ a, yields_buffer (f a)) → yields_buffer (m ≫= f).
Proof.
  intros Hf buf a buf'. rewrite bind_run.
  destruct (m buf) as [[x b]| |]; [apply Hf|done|done].
Qed.

Lemma yields_buffer_Bytes : yields_buffer Bytes.
Proof. intros buf a buf'. unfold Bytes. by intros [= -> ->]. Qed.

Lemma safe_Bytes : safe Bytes.
Proof. intros buf Hb. exact Hb. Qed.

Lemma safe_PutUint16_2 (v : Z) : safe (PutUint16_2 v).
Proof.
  intros buf Hb. unfold PutUint16_2.
  rewrite (proj2 (Nat.ltb_ge _ _)) by lia. by rewrite !length_insert.
Qed.

Section AnyWriter.
Context {W : WritePolicy}.

Lemma safe_Write (p : list byte) : safe (Write p).
Proof. intros buf Hb. unfold Write. rewrite length_app. lia. Qed.

Lemma safe_WriteByte (c : byte) : safe (WriteByte c).
Proof.
  unfold WriteByte. apply safe_bind; [apply safe_Write|]. intros; apply safe_ret.
Qed.

Lemma safe_binary_Write (x : Z) : safe (binary_Write x).
Proof.
  unfold binary_Write. apply safe_bind; [apply safe_Write|].
  intros; apply safe_ret.
Qed.

Lemma safe_write_descriptors fields keys offset :
  safe (write_descriptors fields keys offset).
Proof.
  revert offset. induction keys as [|k keys IH]; intros offset.
  - apply safe_ret.
  - cbn [write_descriptors].
    repeat first
      [ apply IH | apply safe_WriteByte | apply safe_binary_Write
      | apply safe_check | apply safe_bind | intros ? ].
Qed.

Lemma safe_write_values fields keys : safe (write_values fields keys).
Proof.
  induction keys as [|k keys IH].
  - apply safe_ret.
  - cbn [write_values].
    apply safe_bind; [apply safe_Write|]. intros r.
    apply safe_bind; [apply safe_check|]. intros _.
    destruct (negb _); [apply safe_throw|apply IH].
Qed.

Lemma safe_assemble fields order : safe (assemble fields order).
Proof.
  unfold assemble.
  repeat first
    [ apply safe_write_descriptors | apply safe_write_values
    | apply safe_WriteByte | apply safe_check | apply safe_Bytes
    | apply safe_PutUint16_2 | apply safe_bind | intros ? ].
Qed.

Lemma yields_buffer_assemble fields order :
  yields_buffer (assemble fields order).
Proof.
  unfold assemble.
  repeat (apply yields_buffer_bind; intros ?). apply yields_buffer_Bytes.
Qed.

(** C6: whatever the writes on the buffer report, the call either stops
    with an error before anything reaches the connection, or makes exactly
    one [conn.Write], of the whole patched buffer, and returns what it
    reports: nil, or its error wrapped by [trace.Wrap]; there is no second
    attempt. *)
Theorem whole_packet_or_nothing P (conn : Conn) fields order :
  (∃ e, assemble fields order (header P) = Err e
        ∧ WritePreloginFields P conn fields order = ([], Returned (Some e)))
  ∨ (∃ pkt, assemble fields order (header P) = Ok (pkt, pkt)
        ∧ WritePreloginFields P conn fields order
          = ([Printf pkt; ConnWrite pkt],
             Returned (trace_Wrap <$> (conn pkt).2))).
Proof.
  unfold WritePreloginFields.
  pose proof (safe_assemble fields order (header P)) as Hsafe.
  pose proof (yields_buffer_assemble fields order (header P)) as Hyield.
  destruct (assemble fields order (header P)) as [[pkt buf]|e|].
  - right. exists pkt. rewrite (Hyield pkt buf eq_refl). done.
  - left. by exists e.
  - exfalso. apply Hsafe. simpl. lia.
Qed.
End AnyWriter.

(** ** A write that comes up short *)

Section ShortWrite.
Context {W : WritePolicy}.

Lemma write_values_app fields ks1 ks2 buf :
  write_values fields (ks1 ++ ks2) buf
  = match write_values fields ks1 buf with
    | Ok (_, buf') => write_values fields ks2 buf'
    | Err e => Err e
    | Panic => Panic
    end.
Proof.
  revert buf. induction ks1 as [|k ks1 IH]; intros buf; [done|].
  cbn [app write_values]. rewrite !bind_run. unfold Write.
  destruct (write_reports buf (field fields k)) as [n [e|]]; cbn; [done|].
  destruct (negb _); [done|]. apply IH.
Qed.

Lemma write_values_short fields k keys buf :
  ((write_reports buf (field fields k)).1 < length (field fields k))%nat →
  write_values fields (k :: keys) buf
  = Err (default short_write (write_reports buf (field fields k)).2).
Proof.
  intros Hshort. cbn [write_values]. rewrite !bind_run. unfold Write.
  destruct (write_reports buf (field fields k)) as [n [e|]]; cbn in *; [done|].
  rewrite (proj2 (Nat.eqb_neq _ _)) by lia. done.
Qed.

(** C7: when the write of a value reports fewer bytes than the value has,
    the call returns an error and nothing is sent: the error that the write
    reported or, when it reported none, the error "write method didn't
    write the whole value". *)
Theorem short_write_is_an_error P (conn : Conn) fields order
    (ks1 ks2 : list byte) (k : byte) (buf1 buf2 : list byte) :
  sort_Sort order = ks1 ++ k :: ks2 →
  (write_descriptors fields (sort_Sort order)
     (uint16 (5 * Z.of_nat (size fields) + 1))
   ≫= λ _, WriteByte preloginTERMINATOR ≫= check) (header P)
  = Ok (tt, buf1) →
  write_values fields ks1 buf1 = Ok (tt, buf2) →
  ((write_reports buf2 (field fields k)).1 < length (field fields k))%nat →
  WritePreloginFields P conn fields order
  = ([], Returned
           (Some (default short_write
                    (write_reports buf2 (field fields k)).2))).
Proof.
  intros Hkeys Hhead Hvals Hshort.
  unfold WritePreloginFields, assemble.
  rewrite bind_run in Hhead. rewrite bind_run.
  destruct (write_descriptors _ _ _ _) as [[[] b0]| |]; [|done|done].
  rewrite bind_run in Hhead. rewrite bind_run.
  destruct (WriteByte _ b0) as [[err b1]| |]; [|done|done].
  destruct err as [e|]; [done|]. cbn [check] in *.
  injection Hhead as ->.
  rewrite bind_run. cbn [mret M_ret]. rewrite bind_run.
  rewrite Hkeys, write_values_app, Hvals.
  by rewrite write_values_short.
Qed.
End ShortWrite.

Lemma short_write_is_an_error_witness :
  WritePreloginFields (W := short_Buffer) x12 conn_ok prelogin_fields
    [x03; x00; x04; x02; x01]
  = ([], Returned (Some short_write)).
Proof.
  apply (short_write_is_an_error (W := short_Buffer) x12 conn_ok prelogin_fields
           [x03; x00; x04; x02; x01] [x00; x01] [x03; x04] x02
           (header x12
              ++ take 26 (drop 8 (layout x12 prelogin_fields
                                    [x00; x01; x02; x03; x04])))
           (header x12
              ++ take 33 (drop 8 (layout x12 prelogin_fields
                                    [x00; x01; x02; x03; x04])))).
  - reflexivity.
  - vm_compute. reflexivity.
  - vm_compute. reflexivity.
  - vm_compute. lia.
Defined.

(** ** Decoding what was encoded *)

Lemma be16_value (x : Z) :
  byte_val (to_byte (x ≫ 8)) * 256 + byte_val (to_byte x) = uint16 x.
Proof.
  rewrite !byte_val_to_byte, Z.shiftr_div_pow2 by lia.
  change (2 ^ 8) with 256. unfold uint16. zlia.
Qed.

Lemma parse_descriptor_table fields keys offset rest :
  Forall (λ k, k ≠ preloginTERMINATOR) keys →
  parse_descriptors
    (descriptor_table fields keys offset ++ preloginTERMINATOR :: rest)
  = Some (entries fields keys offset).
Proof.
  intros Hk. revert offset.
  induction Hk as [|k keys Hne _ IH]; intros offset.
  - cbn [descriptor_table entries app parse_descriptors].
    by rewrite decide_True.
  - cbn [descriptor_table entries be16 app parse_descriptors].
    rewrite decide_False by done. rewrite IH. cbn [mbind option_bind].
    rewrite !be16_value. do 4 f_equal.
    unfold uint16. zlia.
Qed.

Lemma fmap_key_value {A} (g : byte → A) (l : list (byte * A)) :
  Forall (λ kv, g kv.1 = kv.2) l → (λ k, (k, g k)) <$> l.*1 = l.
Proof.
  induction 1 as [|[k v] l Hkv _ IH]; [done|].
  rewrite !fmap_cons, IH. simpl in Hkv. simpl. by rewrite Hkv.
Qed.

(** The keys with their values, in any order, make up the map. *)
Lemma list_to_map_keys fields keys :
  keys ≡ₚ map_keys fields →
  list_to_map ((λ k, (k, field fields k)) <$> keys) = fields.
Proof.
  intros Hp.
  transitivity (list_to_map (map_to_list fields) : gmap byte (list byte));
    [|apply list_to_map_to_list].
  apply list_to_map_proper.
  - rewrite <- list_fmap_compose. simpl.
    rewrite list_fmap_id, Hp. apply NoDup_map_keys.
  - rewrite Hp. unfold map_keys. rewrite fmap_key_value; [done|].
    apply Forall_forall. intros [k v] Hin. apply elem_of_map_to_list in Hin.
    simpl. unfold field. by rewrite Hin.
Qed.

Lemma read_entries P fields keys ks1 ks2 :
  keys = ks1 ++ ks2 →
  length keys = size fields →
  5 * Z.of_nat (size fields) + 1 + Z.of_nat (bytes_of fields keys) ≤ 65535 →
  mapM (read_value 8 (layout P fields keys))
    (entries fields ks2
       (uint16 (5 * Z.of_nat (size fields) + 1
                + Z.of_nat (bytes_of fields ks1))))
  = Some ((λ k, (k, field fields k)) <$> ks2).
Proof.
  intros E Hlen Hfit. revert ks1 E.
  induction ks2 as [|k ks2 IH]; intros ks1 E; [done|].
  cbn [entries].
  assert (Hb : (bytes_of fields keys
                = bytes_of fields ks1 + value_len fields k
                  + bytes_of fields ks2)%nat).
  { rewrite E, bytes_of_app. unfold bytes_of at 2. rewrite fmap_cons.
    simpl. unfold bytes_of. lia. }
  replace (uint16 (uint16 _ + uint16 (Z.of_nat (value_len fields k))))
    with (uint16 (5 * Z.of_nat (size fields) + 1
                  + Z.of_nat (bytes_of fields (ks1 ++ [k])))).
  2:{ rewrite bytes_of_app. unfold bytes_of at 2. simpl.
      unfold uint16. zlia. }
  rewrite mapM_Some. constructor.
  - unfold read_value.
    replace (Z.to_nat (uint16 (Z.of_nat (value_len fields k))))
      with (value_len fields k) by (unfold uint16; zlia).
    replace (8 + Z.to_nat (uint16 _))%nat
      with (8 + (5 * length keys + 1 + bytes_of fields ks1))%nat
      by (unfold uint16; zlia).
    rewrite (proj2 (Nat.leb_le _ _)) by (rewrite length_layout; lia).
    subst keys. by rewrite layout_value.
  - apply mapM_Some, (IH (ks1 ++ [k])). by rewrite <- app_assoc.
Qed.

Lemma drop_layout_header P fields keys :
  drop 8 (layout P fields keys)
  = descriptor_table fields keys (uint16 (5 * Z.of_nat (size fields) + 1))
    ++ preloginTERMINATOR :: value_section fields keys.
Proof. reflexivity. Qed.

Lemma decode_layout P fields keys :
  keys ≡ₚ map_keys fields →
  fields !! preloginTERMINATOR = None →
  5 * Z.of_nat (size fields) + 1 + Z.of_nat (bytes_of fields keys) ≤ 65535 →
  decode 8 (layout P fields keys) = Some fields.
Proof.
  intros Hp Hterm Hfit. unfold decode.
  assert (Hlen : length keys = size fields)
    by (by rewrite Hp, length_map_keys).
  assert (Hne : Forall (λ k, k ≠ preloginTERMINATOR) keys).
  { apply Forall_forall. intros k Hk ->.
    rewrite Hp in Hk. apply elem_of_map_keys in Hk as [v Hv]. congruence. }
  rewrite drop_layout_header, parse_descriptor_table by done.
  cbn [mbind option_bind].
  pose proof (read_entries P fields keys [] keys eq_refl Hlen Hfit) as Hread.
  unfold bytes_of at 1 in Hread. simpl in Hread.
  rewrite Z.add_0_r in Hread. rewrite Hread. cbn [mbind option_bind].
  by rewrite list_to_map_keys.
Qed.

(** C5, as the code has it: for a map without the terminator kind whose
    descriptor table, terminator and values take at most 65535 bytes
    together, reading the packet with the offsets counted from the start of
    the descriptor table gives back exactly the map. *)
Theorem decode_encode P conn fields order :
  order ≡ₚ map_keys fields →
  fields !! preloginTERMINATOR = None →
  5 * Z.of_nat (size fields) + 1
    + Z.of_nat (bytes_of fields (map_keys fields)) ≤ 65535 →
  ∃ pkt, sends P conn fields order pkt ∧ decode 8 pkt = Some fields.
Proof.
  intros Hp Hterm Hfit. exists (layout P fields (sort_Sort order)).
  split; [apply sends_layout|].
  assert (Hs : sort_Sort order ≡ₚ map_keys fields)
    by (by rewrite sort_Sort_Permutation).
  apply decode_layout; [done|done|].
  unfold bytes_of in *. by rewrite Hs.
Qed.

Lemma decode_encode_witness :
  ∃ pkt, sends x12 conn_ok prelogin_fields [x03; x00; x04; x02; x01] pkt
    ∧ decode 8 pkt = Some prelogin_fields.
Proof.
  apply (decode_encode x12 conn_ok prelogin_fields).
  - refine (bool_decide_unpack _ _); vm_compute; exact I.
  - reflexivity.
  - vm_compute. discriminate.
Defined.

(** C5 as stated fails.  Within the bounds of the data model (no terminator
    kind, values of at most 65535 bytes) the 16-bit offset wraps: the second
    option of [fields_big] gets offset 10 and is read back as the
    terminator byte.  And with the offsets counted from the start of the
    packet, as section 3 words them, the packet of [WritePrelogin] itself
    does not read back. *)
Lemma decode_encode_fails :
  (fields_big !! preloginTERMINATOR = None
   ∧ Z.of_nat (value_len fields_big preloginVERSION) = 65535
   ∧ field fields_big preloginENCRYPTION = [x07]
   ∧ ∃ pkt, sends x12 conn_ok fields_big [x01; x00] pkt
       ∧ descriptor_offset pkt 1 = Some 10
       ∧ (decode 8 pkt ≫= λ m, m !! preloginENCRYPTION) = Some [xff]
       ∧ decode 8 pkt ≠ Some fields_big)
  ∧ ∃ pkt, sends x12 conn_ok prelogin_fields [x03; x00; x04; x02; x01] pkt
      ∧ decode 0 pkt ≠ Some prelogin_fields.
Proof.
  split; [split_and!|].
  - vm_compute. reflexivity.
  - vm_compute. reflexivity.
  - vm_compute. reflexivity.
  - exists (layout x12 fields_big (sort_Sort [x01; x00])).
    assert (Hread :
      (decode 8 (layout x12 fields_big (sort_Sort [x01; x00]))
       ≫= λ m, m !! preloginENCRYPTION) = Some [xff])
      by (vm_compute; reflexivity).
    split_and!.
    + apply sends_layout.
    + vm_compute. reflexivity.
    + exact Hread.
    + assert (Horig : (Some fields_big ≫= λ m, m !! preloginENCRYPTION)
                      = Some [x07])
        by (vm_compute; reflexivity).
      intros Hd. rewrite Hd, Horig in Hread. discriminate Hread.
  - exists (layout x12 prelogin_fields (sort_Sort [x03; x00; x04; x02; x01])).
    split; [apply sends_layout|].
    intros Hd.
    assert (Hread :
      (decode 0 (layout x12 prelogin_fields (sort_Sort [x03; x00; x04; x02; x01]))
       ≫= λ m, m !! preloginINSTOPT)
      ≠ Some (field prelogin_fields preloginINSTOPT))
      by (vm_compute; discriminate).
    apply Hread. rewrite Hd. reflexivity.
Qed.

(** * Further properties *)

(** ** The methods of [keySlice] *)

Lemma index_Some (p : list byte) (i : Z) (a : byte) :
  index p i = Some a ↔ 0 ≤ i ∧ p !! Z.to_nat i = Some a.
Proof.
  unfold index. destruct (Z.ltb_spec i 0); split.
  - done.
  - intros [? _]. lia.
  - done.
  - by intros [_ ?].
Qed.

Lemma index_is_Some (p : list byte) (i : Z) :
  is_Some (index p i) ↔ 0 ≤ i < keySlice.Len p.
Proof.
  unfold keySlice.Len. split.
  - intros [a [Hi Ha]%index_Some]. apply lookup_lt_Some in Ha. lia.
  - intros [Hi Hlt]. destruct (lookup_lt_is_Some_2 p (Z.to_nat i)) as [a Ha];
      [lia|]. exists a. by apply index_Some.
Qed.

Lemma index_None (p : list byte) (i : Z) :
  index p i = None ↔ ¬ (0 ≤ i < keySlice.Len p).
Proof. rewrite <- index_is_Some, eq_None_not_Some. done. Qed.

(** Exchanging two positions of a list, read position by position. *)
Lemma lookup_swap (p : list byte) (i j k : nat) (a b : byte) :
  p !! i = Some a → p !! j = Some b →
  <[j := a]> (<[i := b]> p) !! k
  = p !! (if decide (k = i) then j else if decide (k = j) then i else k).
Proof.
  intros Ha Hb.
  pose proof (lookup_lt_Some _ _ _ Ha). pose proof (lookup_lt_Some _ _ _ Hb).
  destruct (decide (k = j)) as [->|Hkj].
  - rewrite list_lookup_insert_eq by (rewrite length_insert; lia).
    destruct (decide (j = i)) as [->|]; congruence.
  - rewrite list_lookup_insert_ne by done.
    destruct (decide (k = i)) as [->|Hki].
    + by rewrite list_lookup_insert_eq.
    + by rewrite list_lookup_insert_ne.
Qed.

(** X1: [Swap] with both indices in range exchanges the two elements, leaves
    every other position and the length as they are, and so keeps the keys
    of the slice, each as often as before. *)
Theorem keySlice_Swap_exchanges (p : list byte) (i j : Z) :
  0 ≤ i < keySlice.Len p →
  0 ≤ j < keySlice.Len p →
  ∃ q, keySlice.Swap p i j = Ok q
    ∧ keySlice.Len q = keySlice.Len p
    ∧ q ≡ₚ p
    ∧ index q i = index p j
    ∧ index q j = index p i
    ∧ ∀ k, k ≠ i → k ≠ j → index q k = index p k.
Proof.
  intros Hi Hj.
  destruct (proj2 (index_is_Some p i) Hi) as [a Ha].
  destruct (proj2 (index_is_Some p j) Hj) as [b Hb].
  unfold keySlice.Swap. rewrite Ha, Hb. eexists. split; [done|].
  apply index_Some in Ha as [_ Ha]. apply index_Some in Hb as [_ Hb].
  assert (Hlook : ∀ k : Z, 0 ≤ k →
            <[Z.to_nat j := a]> (<[Z.to_nat i := b]> p) !! Z.to_nat k
            = p !! Z.to_nat (if decide (k = i) then j
                             else if decide (k = j) then i else k)).
  { intros k Hk. rewrite (lookup_swap p _ _ _ a b Ha Hb).
    repeat case_decide; try done; lia. }
  split_and!.
  - unfold keySlice.Len. by rewrite !length_insert.
  - apply Permutation_inj. split; [by rewrite !length_insert|].
    exists (λ k, if decide (k = Z.to_nat i) then Z.to_nat j
                 else if decide (k = Z.to_nat j) then Z.to_nat i else k).
    split.
    + intros x y. repeat case_decide; lia.
    + intros k. by apply lookup_swap.
  - unfold index. destruct (Z.ltb_spec i 0), (Z.ltb_spec j 0); try lia.
    rewrite (Hlook i) by lia. by rewrite decide_True.
  - unfold index. destruct (Z.ltb_spec i 0), (Z.ltb_spec j 0); try lia.
    rewrite (Hlook j) by lia. repeat case_decide; congruence.
  - intros k Hki Hkj. unfold index. destruct (Z.ltb_spec k 0); [done|].
    rewrite (Hlook k) by lia. by rewrite !decide_False.
Qed.

Lemma keySlice_Swap_exchanges_witness :
  ∃ q, keySlice.Swap [x03; x00; x04] 0 2 = Ok q
    ∧ keySlice.Len q = keySlice.Len [x03; x00; x04]
    ∧ q ≡ₚ [x03; x00; x04]
    ∧ index q 0 = index [x03; x00; x04] 2
    ∧ index q 2 = index [x03; x00; x04] 0
    ∧ ∀ k, k ≠ 0 → k ≠ 2 → index q k = index [x03; x00; x04] k.
Proof.
  apply (keySlice_Swap_exchanges [x03; x00; x04] 0 2); vm_compute; split;
    congruence.
Defined.

Lemma store_in_range (p : list byte) (i : Z) (v : byte) :
  0 ≤ i < keySlice.Len p → store p i v = Some (<[Z.to_nat i := v]> p).
Proof.
  unfold store, keySlice.Len. intros Hi.
  destruct (Z.ltb_spec i 0); [lia|].
  destruct (Z.leb_spec (Z.of_nat (length p)) i); [lia|done].
Qed.

Lemma Swap_steps_in_range (p : list byte) (i j : Z) (a b : byte) :
  index p i = Some a → index p j = Some b →
  keySlice.Swap_steps p i j
  = (<[Z.to_nat j := a]> (<[Z.to_nat i := b]> p), Ok tt).
Proof.
  intros Ha Hb. unfold keySlice.Swap_steps. rewrite Ha, Hb.
  assert (Hi : 0 ≤ i < keySlice.Len p)
    by (apply index_is_Some; by eexists).
  assert (Hj : 0 ≤ j < keySlice.Len p)
    by (apply index_is_Some; by eexists).
  rewrite store_in_range by done.
  rewrite store_in_range
    by (unfold keySlice.Len in *; by rewrite length_insert).
  done.
Qed.

(** X2: [Swap] and [Less] panic exactly when one of the two indices is
    negative or not below [Len].  A [Swap] that panics leaves the slice as
    it was: both elements are read before the first assignment, so that
    neither assignment can fail and the slice is never left half
    swapped. *)
Theorem keySlice_panics_iff_out_of_range (p : list byte) (i j : Z) :
  ((keySlice.Swap_steps p i j).2 = Panic
   ↔ ¬ (0 ≤ i < keySlice.Len p ∧ 0 ≤ j < keySlice.Len p))
  ∧ ((keySlice.Swap_steps p i j).2 = Panic →
     (keySlice.Swap_steps p i j).1 = p)
  ∧ (∀ q, keySlice.Swap_steps p i j = (q, Ok tt)
          ↔ keySlice.Swap p i j = Ok q)
  ∧ (keySlice.Swap p i j = Panic
     ↔ ¬ (0 ≤ i < keySlice.Len p ∧ 0 ≤ j < keySlice.Len p))
  ∧ (keySlice.Less p i j = Panic
     ↔ ¬ (0 ≤ i < keySlice.Len p ∧ 0 ≤ j < keySlice.Len p)).
Proof.
  destruct (index p i) as [a|] eqn:Ei, (index p j) as [b|] eqn:Ej.
  - rewrite (Swap_steps_in_range p i j a b Ei Ej).
    assert (is_Some (index p i)) as ?%index_is_Some by (by rewrite Ei).
    assert (is_Some (index p j)) as ?%index_is_Some by (by rewrite Ej).
    unfold keySlice.Swap, keySlice.Less. rewrite Ei, Ej. cbn [fst snd].
    split_and!; try done; try (split; [done|tauto]).
    intros q. split; by intros [= <-].
  - apply index_None in Ej as Hj.
    unfold keySlice.Swap_steps, keySlice.Swap, keySlice.Less.
    rewrite Ei, Ej. cbn [fst snd].
    split_and!; try done; try (split; [tauto|done]).
  - apply index_None in Ei as Hi.
    unfold keySlice.Swap_steps, keySlice.Swap, keySlice.Less.
    rewrite Ei, Ej. cbn [fst snd].
    split_and!; try done; try (split; [tauto|done]).
  - apply index_None in Ei as Hi.
    unfold keySlice.Swap_steps, keySlice.Swap, keySlice.Less.
    rewrite Ei, Ej. cbn [fst snd].
    split_and!; try done; try (split; [tauto|done]).
Qed.

(** X3: a second [Swap] of the same two indices restores the slice. *)
Theorem keySlice_Swap_involutive (p q : list byte) (i j : Z) :
  keySlice.Swap p i j = Ok q →
  keySlice.Swap q i j = Ok p ∧ keySlice.Swap q j i = Ok p.
Proof.
  unfold keySlice.Swap.
  destruct (index p j) as [b|] eqn:Ej; [|done].
  destruct (index p i) as [a|] eqn:Ei; [|done].
  intros [= <-].
  apply index_Some in Ei as [Hi Ha]. apply index_Some in Ej as [Hj Hb].
  pose proof (lookup_lt_Some _ _ _ Ha). pose proof (lookup_lt_Some _ _ _ Hb).
  assert (Eqi : index (<[Z.to_nat j := a]> (<[Z.to_nat i := b]> p)) i
                = Some (if decide (Z.to_nat i = Z.to_nat j) then a else b)).
  { apply index_Some. split; [done|].
    rewrite (lookup_swap p _ _ _ a b Ha Hb). repeat case_decide; congruence. }
  assert (Eqj : index (<[Z.to_nat j := a]> (<[Z.to_nat i := b]> p)) j = Some a).
  { apply index_Some. split; [done|].
    rewrite (lookup_swap p _ _ _ a b Ha Hb). repeat case_decide; congruence. }
  rewrite Eqi, Eqj.
  split; f_equal; apply list_eq; intros k;
    rewrite !list_lookup_insert, !length_insert;
    repeat case_decide; destruct_and?; subst; try congruence; try lia.
Qed.

Lemma keySlice_Swap_involutive_witness :
  keySlice.Swap [x00; x03; x04] 0 1 = Ok [x03; x00; x04]
  ∧ keySlice.Swap [x00; x03; x04] 1 0 = Ok [x03; x00; x04].
Proof.
  apply (keySlice_Swap_involutive [x03; x00; x04] [x00; x03; x04] 0 1).
  reflexivity.
Defined.

Lemma Less_Ok (p : list byte) (i j : Z) (a b : byte) :
  index p i = Some a → index p j = Some b →
  keySlice.Less p i j = Ok (byte_val a <? byte_val b).
Proof. intros Ha Hb. unfold keySlice.Less. by rewrite Ha, Hb. Qed.

(** X4: on the indices of a slice [Less] is a strict order that is total
    up to equal keys: no index is less than itself, [Less] is asymmetric and
    transitive, and two indices neither of which is less than the other
    hold the same key.  This is what [sort.Sort] asks of [Less]. *)
Theorem keySlice_Less_strict_order (p : list byte) (i j k : Z) :
  0 ≤ i < keySlice.Len p →
  0 ≤ j < keySlice.Len p →
  0 ≤ k < keySlice.Len p →
  keySlice.Less p i i = Ok false
  ∧ (keySlice.Less p i j = Ok true → keySlice.Less p j i = Ok false)
  ∧ (keySlice.Less p i j = Ok true → keySlice.Less p j k = Ok true →
     keySlice.Less p i k = Ok true)
  ∧ (keySlice.Less p i j = Ok false → keySlice.Less p j i = Ok false →
     index p i = index p j).
Proof.
  intros Hi Hj Hk.
  destruct (proj2 (index_is_Some p i) Hi) as [a Ha].
  destruct (proj2 (index_is_Some p j) Hj) as [b Hb].
  destruct (proj2 (index_is_Some p k) Hk) as [c Hc].
  rewrite (Less_Ok p i i a a), (Less_Ok p i j a b), (Less_Ok p j i b a),
    (Less_Ok p j k b c), (Less_Ok p i k a c) by done.
  rewrite Ha, Hb.
  split_and!.
  - f_equal. lia.
  - intros [= H]. f_equal. lia.
  - intros [= H1] [= H2]. f_equal. lia.
  - intros [= H1] [= H2]. f_equal. apply byte_val_inj. lia.
Qed.

Lemma keySlice_Less_strict_order_witness :
  keySlice.Less [x03; x00; x04] 1 1 = Ok false
  ∧ (keySlice.Less [x03; x00; x04] 1 0 = Ok true →
     keySlice.Less [x03; x00; x04] 0 1 = Ok false)
  ∧ (keySlice.Less [x03; x00; x04] 1 0 = Ok true →
     keySlice.Less [x03; x00; x04] 0 2 = Ok true →
     keySlice.Less [x03; x00; x04] 1 2 = Ok true)
  ∧ (keySlice.Less [x03; x00; x04] 1 0 = Ok false →
     keySlice.Less [x03; x00; x04] 0 1 = Ok false →
     index [x03; x00; x04] 1 = index [x03; x00; x04] 0).
Proof.
  apply (keySlice_Less_strict_order [x03; x00; x04] 1 0 2); vm_compute; split;
    congruence.
Defined.

(** X5: after [Swap(i, j)] the comparison of the two positions is the
    earlier comparison the other way round. *)
Theorem keySlice_Less_after_Swap (p q : list byte) (i j : Z) :
  keySlice.Swap p i j = Ok q →
  keySlice.Less q i j = keySlice.Less p j i
  ∧ keySlice.Less q j i = keySlice.Less p i j.
Proof.
  intros Hswap.
  assert (Hi : 0 ≤ i < keySlice.Len p ∧ 0 ≤ j < keySlice.Len p).
  { unfold keySlice.Swap in Hswap.
    destruct (index p j) eqn:Ej; [|done]. destruct (index p i) eqn:Ei; [|done].
    split; apply index_is_Some; by eexists. }
  destruct Hi as [Hi Hj].
  unfold keySlice.Swap in Hswap.
  destruct (index p j) as [b|] eqn:Ej; [|done].
  destruct (index p i) as [a|] eqn:Ei; [|done].
  injection Hswap as Hq.
  apply index_Some in Ei as [_ Ha]. apply index_Some in Ej as [_ Hb].
  assert (Eqi : index q i = Some b).
  { apply index_Some. split; [lia|]. subst q.
    rewrite (lookup_swap p _ _ _ a b Ha Hb). by rewrite decide_True. }
  assert (Eqj : index q j = Some a).
  { apply index_Some. split; [lia|]. subst q.
    rewrite (lookup_swap p _ _ _ a b Ha Hb). repeat case_decide; congruence. }
  assert (Epi : index p i = Some a) by (apply index_Some; split; [lia|done]).
  assert (Epj : index p j = Some b) by (apply index_Some; split; [lia|done]).
  by rewrite (Less_Ok q i j b a), (Less_Ok q j i a b), (Less_Ok p j i b a),
    (Less_Ok p i j a b).
Qed.

Lemma keySlice_Less_after_Swap_witness :
  keySlice.Less [x00; x03; x04] 0 1 = keySlice.Less [x03; x00; x04] 1 0
  ∧ keySlice.Less [x00; x03; x04] 1 0 = keySlice.Less [x03; x00; x04] 0 1.
Proof.
  apply (keySlice_Less_after_Swap [x03; x00; x04] [x00; x03; x04] 0 1).
  reflexivity.
Defined.

(** ** The key slice after the sort *)

Lemma sorted_lookup_le (l : list byte) (i j : nat) (a b : byte) :
  StronglySorted byte_le l → (i ≤ j)%nat →
  l !! i = Some a → l !! j = Some b → byte_le a b.
Proof.
  intros Hs. revert i j. induction Hs as [|x l Hs IH Hx]; intros i j Hij Ha Hb.
  - done.
  - destruct i as [|i], j as [|j]; simpl in *.
    + injection Ha as ->. injection Hb as ->. unfold byte_le. lia.
    + injection Ha as ->. rewrite Forall_forall in Hx. apply Hx.
      by eapply list_elem_of_lookup_2.
    + lia.
    + apply (IH i j); [lia|done|done].
Qed.

(** X6: what lines 35-39 leave in [keys]: the keys that [range] yielded,
    each as often as it was yielded, in an order in which no later position
    is [Less] than an earlier one; when the keys are distinct, as the keys
    of a map are, every earlier position is [Less] than every later one. *)
Theorem sort_Sort_postcondition (order : list byte) (i j : Z) :
  0 ≤ i →
  i ≤ j →
  j < keySlice.Len (sort_Sort order) →
  sort_Sort order ≡ₚ order
  ∧ keySlice.Len (sort_Sort order) = keySlice.Len order
  ∧ keySlice.Less (sort_Sort order) j i = Ok false
  ∧ (NoDup order → i < j → keySlice.Less (sort_Sort order) i j = Ok true).
Proof.
  intros H0 Hij Hj.
  pose proof (sort_Sort_Permutation order) as Hperm.
  pose proof (sort_Sort_sorted order) as Hsorted.
  destruct (proj2 (index_is_Some (sort_Sort order) i)) as [a Ha]; [lia|].
  destruct (proj2 (index_is_Some (sort_Sort order) j)) as [b Hb]; [lia|].
  rewrite (Less_Ok _ j i b a), (Less_Ok _ i j a b) by done.
  apply index_Some in Ha as [_ Ha]. apply index_Some in Hb as [_ Hb].
  assert (Hle : byte_le a b)
    by (apply (sorted_lookup_le (sort_Sort order) (Z.to_nat i) (Z.to_nat j));
        [done|lia|done..]).
  unfold byte_le in Hle.
  split_and!.
  - done.
  - unfold keySlice.Len. by rewrite Hperm.
  - f_equal. lia.
  - intros Hnd Hlt. f_equal.
    assert (a ≠ b).
    { intros ->. rewrite <- Hperm in Hnd.
      pose proof (NoDup_lookup _ _ _ _ Hnd Ha Hb). lia. }
    assert (byte_val a ≠ byte_val b) by (intros ?%byte_val_inj; done).
    lia.
Qed.

Lemma sort_Sort_postcondition_witness :
  sort_Sort [x03; x00; x04; x02; x01] ≡ₚ [x03; x00; x04; x02; x01]
  ∧ keySlice.Len (sort_Sort [x03; x00; x04; x02; x01])
    = keySlice.Len [x03; x00; x04; x02; x01]
  ∧ keySlice.Less (sort_Sort [x03; x00; x04; x02; x01]) 3 1 = Ok false
  ∧ (NoDup [x03; x00; x04; x02; x01] → 1 < 3 →
     keySlice.Less (sort_Sort [x03; x00; x04; x02; x01]) 1 3 = Ok true).
Proof.
  apply (sort_Sort_postcondition [x03; x00; x04; x02; x01] 1 3).
  - lia.
  - lia.
  - vm_compute. reflexivity.
Defined.

(** ** More on the packet of [WritePrelogin] *)

(** X7: the three 16-bit fields hold their values modulo 65536, whatever
    the sizes: the offset field of the option at position [N] of the sorted
    keys is [5 * count + 1] plus the lengths of the values before it, the
    length field is the length of its value, and the header length is the
    length of the packet, each reduced modulo 65536; the code has no check
    for overflow. *)
Theorem sixteen_bit_fields_wrap P conn fields order (N : nat) (k : byte) :
  sort_Sort order !! N = Some k →
  ∃ pkt, sends P conn fields order pkt
    ∧ descriptor_offset pkt N
      = Some ((5 * Z.of_nat (size fields) + 1
               + Z.of_nat (bytes_of fields (take N (sort_Sort order))))
              `mod` 65536)
    ∧ descriptor_length pkt N
      = Some (Z.of_nat (value_len fields k) `mod` 65536)
    ∧ header_length pkt = Some (Z.of_nat (length pkt) `mod` 65536).
Proof.
  intros HN. exists (layout P fields (sort_Sort order)).
  split; [apply sends_layout|].
  split_and!.
  - apply list_elem_of_split_length in HN as (ks1 & ks2 & E & ->).
    rewrite E, take_app_length. apply layout_descriptor_offset.
  - apply list_elem_of_split_length in HN as (ks1 & ks2 & E & ->).
    rewrite E. apply layout_descriptor_length.
  - rewrite length_layout. unfold header_length, layout.
    change ([P; x01] ++ ?b ++ ?r) with ([P; x01] ++ b ++ r).
    rewrite (u16_after [P; x01]) by done.
    rewrite length_app, length_descriptor_table. cbn [length].
    rewrite length_value_section. unfold uint16. f_equal. zlia.
Qed.

Lemma sixteen_bit_fields_wrap_witness :
  ∃ pkt, sends x12 conn_ok fields_big [x01; x00] pkt
    ∧ descriptor_offset pkt 1
      = Some ((5 * Z.of_nat (size fields_big) + 1
               + Z.of_nat (bytes_of fields_big
                             (take 1 (sort_Sort [x01; x00]))))
              `mod` 65536)
    ∧ descriptor_length pkt 1
      = Some (Z.of_nat (value_len fields_big preloginENCRYPTION) `mod` 65536)
    ∧ header_length pkt = Some (Z.of_nat (length pkt) `mod` 65536).
Proof.
  apply (sixteen_bit_fields_wrap x12 conn_ok fields_big [x01; x00] 1).
  reflexivity.
Defined.

Lemma bytes_of_snoc fields ks k :
  bytes_of fields (ks ++ [k]) = (bytes_of fields ks + value_len fields k)%nat.
Proof. rewrite bytes_of_app. unfold bytes_of at 2. simpl. lia. Qed.

Lemma bytes_of_cons fields k ks :
  bytes_of fields (k :: ks) = (value_len fields k + bytes_of fields ks)%nat.
Proof. reflexivity. Qed.

Lemma bytes_of_Permutation fields ks1 ks2 :
  ks1 ≡ₚ ks2 → bytes_of fields ks1 = bytes_of fields ks2.
Proof. intros Hp. unfold bytes_of. by rewrite Hp. Qed.

(** X8: the values tile the value section.  When descriptor table,
    terminator and values fit in 65535 bytes, the length field of every
    descriptor is the length of its value, the first value starts right
    after the terminator, every value ends where the next one starts, and
    the last one ends at the end of the packet; offsets count from byte 8. *)
Theorem values_tile_the_value_section P conn fields order (N : nat)
    (k : byte) :
  order ≡ₚ map_keys fields →
  sort_Sort order !! N = Some k →
  5 * Z.of_nat (size fields) + 1
    + Z.of_nat (bytes_of fields (map_keys fields)) ≤ 65535 →
  ∃ pkt off, sends P conn fields order pkt
    ∧ descriptor_offset pkt N = Some off
    ∧ descriptor_length pkt N = Some (Z.of_nat (value_len fields k))
    ∧ (N = 0%nat → off = 5 * Z.of_nat (size fields) + 1)
    ∧ match sort_Sort order !! S N with
      | Some _ =>
          descriptor_offset pkt (S N)
          = Some (off + Z.of_nat (value_len fields k))
      | None =>
          8 + off + Z.of_nat (value_len fields k) = Z.of_nat (length pkt)
      end.
Proof.
  intros Hp HN Hfit.
  destruct (sorted_keys_facts fields order Hp) as (Hlen & _ & _ & _).
  assert (Hb : bytes_of fields (sort_Sort order)
               = bytes_of fields (map_keys fields))
    by (apply bytes_of_Permutation; by rewrite sort_Sort_Permutation).
  apply list_elem_of_split_length in HN as (ks1 & ks2 & E & ->).
  exists (layout P fields (sort_Sort order)),
    (5 * Z.of_nat (size fields) + 1 + Z.of_nat (bytes_of fields ks1)).
  split; [apply sends_layout|].
  rewrite E in *. rewrite bytes_of_app, bytes_of_cons in Hb.
  split_and!.
  - rewrite layout_descriptor_offset. unfold uint16. f_equal. zlia.
  - rewrite layout_descriptor_length. unfold uint16. f_equal. zlia.
  - intros H0. destruct ks1; [|done]. unfold bytes_of. simpl. lia.
  - destruct ks2 as [|k' ks2].
    + rewrite lookup_ge_None_2 by (rewrite length_app; simpl; lia).
      rewrite length_layout, bytes_of_app, bytes_of_cons.
      unfold bytes_of at 3. simpl. lia.
    + replace (ks1 ++ k :: k' :: ks2) with ((ks1 ++ [k]) ++ k' :: ks2)
        by (by rewrite <- app_assoc).
      replace (S (length ks1)) with (length (ks1 ++ [k]))
        by (rewrite length_app; simpl; lia).
      rewrite list_lookup_middle by done.
      rewrite layout_descriptor_offset, bytes_of_snoc.
      rewrite bytes_of_cons in Hb. unfold uint16. f_equal. zlia.
Qed.

Lemma values_tile_the_value_section_witness :
  ∃ pkt off, sends x12 conn_ok prelogin_fields [x03; x00; x04; x02; x01] pkt
    ∧ descriptor_offset pkt 4 = Some off
    ∧ descriptor_length pkt 4
      = Some (Z.of_nat (value_len prelogin_fields preloginMARS))
    ∧ (4%nat = 0%nat → off = 5 * Z.of_nat (size prelogin_fields) + 1)
    ∧ match sort_Sort [x03; x00; x04; x02; x01] !! 5%nat with
      | Some _ =>
          descriptor_offset pkt 5
          = Some (off + Z.of_nat (value_len prelogin_fields preloginMARS))
      | None =>
          8 + off + Z.of_nat (value_len prelogin_fields preloginMARS)
          = Z.of_nat (length pkt)
      end.
Proof.
  apply (values_tile_the_value_section x12 conn_ok prelogin_fields).
  - refine (bool_decide_unpack _ _); vm_compute; exact I.
  - reflexivity.
  - vm_compute. discriminate.
Defined.

Lemma sends_inv P conn fields order pkt :
  sends P conn fields order pkt → pkt = layout P fields (sort_Sort order).
Proof.
  unfold sends. rewrite WritePreloginFields_run. cbv zeta. by intros [= ->].
Qed.

(** X9: the packet determines the options.  Two option maps without the
    terminator kind, each fitting in 65535 bytes with its descriptor table,
    that give the same packet are the same map. *)
Theorem packet_determines_the_options P conn
    (fields1 fields2 : gmap byte (list byte)) (order1 order2 pkt : list byte) :
  order1 ≡ₚ map_keys fields1 →
  order2 ≡ₚ map_keys fields2 →
  fields1 !! preloginTERMINATOR = None →
  fields2 !! preloginTERMINATOR = None →
  5 * Z.of_nat (size fields1) + 1
    + Z.of_nat (bytes_of fields1 (map_keys fields1)) ≤ 65535 →
  5 * Z.of_nat (size fields2) + 1
    + Z.of_nat (bytes_of fields2 (map_keys fields2)) ≤ 65535 →
  sends P conn fields1 order1 pkt →
  sends P conn fields2 order2 pkt →
  fields1 = fields2.
Proof.
  intros Hp1 Hp2 Ht1 Ht2 Hfit1 Hfit2 Hs1 Hs2.
  apply sends_inv in Hs1, Hs2.
  assert (Hd1 : decode 8 pkt = Some fields1).
  { rewrite Hs1. apply decode_layout; [by rewrite sort_Sort_Permutation|done|].
    by rewrite (bytes_of_Permutation fields1 _ (map_keys fields1))
      by (by rewrite sort_Sort_Permutation). }
  assert (Hd2 : decode 8 pkt = Some fields2).
  { rewrite Hs2. apply decode_layout; [by rewrite sort_Sort_Permutation|done|].
    by rewrite (bytes_of_Permutation fields2 _ (map_keys fields2))
      by (by rewrite sort_Sort_Permutation). }
  congruence.
Qed.

Lemma packet_determines_the_options_witness :
  prelogin_fields = prelogin_fields.
Proof.
  apply (packet_determines_the_options x12 conn_ok prelogin_fields
           prelogin_fields [x03; x00; x04; x02; x01] [x01; x04; x00; x03; x02]
           (layout x12 prelogin_fields [x00; x01; x02; x03; x04])).
  - refine (bool_decide_unpack _ _); vm_compute; exact I.
  - refine (bool_decide_unpack _ _); vm_compute; exact I.
  - reflexivity.
  - reflexivity.
  - vm_compute. discriminate.
  - vm_compute. discriminate.
  - exact (sends_layout x12 conn_ok prelogin_fields [x03; x00; x04; x02; x01]).
  - exact (sends_layout x12 conn_ok prelogin_fields [x01; x04; x00; x03; x02]).
Defined.

(** X10: the empty map gives the header and the terminator alone, nine
    bytes, with 9 in the length field. *)
Theorem empty_map_packet P conn (order : list byte) :
  order ≡ₚ map_keys ∅ →
  sends P conn ∅ order [P; x01; x00; x09; x00; x00; x00; x00; xff].
Proof.
  unfold map_keys. rewrite map_to_list_empty. intros ->%Permutation_nil_r.
  apply (sends_layout P conn ∅ []).
Qed.

Lemma empty_map_packet_witness :
  sends x12 conn_ok ∅ [] [x12; x01; x00; x09; x00; x00; x00; x00; xff].
Proof. apply (empty_map_packet x12 conn_ok []). reflexivity. Defined.

(** ** Any writer: what is sent and what comes back *)

Lemma appends_ret {A} (a : A) : appends (mret a).
Proof. intros buf x buf' [= _ <-]. exists []. by rewrite app_nil_r. Qed.

Lemma appends_throw {A} (e : error) : appends (throw (A := A) e).
Proof. intros buf x buf' H. discriminate H. Qed.

Lemma appends_bind {A B} (m : M A) (f : A → M B) :
  appends m → (∀ a, appends (f a)) → appends (m ≫= f).
Proof.
  intros Hm Hf buf b buf'. rewrite bind_run.
  destruct (m buf) as [[a buf1]| |] eqn:E; [|done|done].
  intros Hfa. apply Hm in E as [t1 ->]. apply Hf in Hfa as [t2 ->].
  exists (t1 ++ t2). by rewrite app_assoc.
Qed.

Lemma appends_check (err : option error) : appends (check err).
Proof. destruct err; [apply appends_throw|apply appends_ret]. Qed.

Section AnyWriterMore.
Context {W : WritePolicy}.

Lemma appends_Write (p : list byte) : appends (Write p).
Proof. intros buf r buf'. unfold Write. intros [= _ <-]. eauto. Qed.

Lemma appends_WriteByte (c : byte) : appends (WriteByte c).
Proof.
  unfold WriteByte. apply appends_bind; [apply appends_Write|].
  intros; apply appends_ret.
Qed.

Lemma appends_binary_Write (x : Z) : appends (binary_Write x).
Proof.
  unfold binary_Write. apply appends_bind; [apply appends_Write|].
  intros; apply appends_ret.
Qed.

Lemma appends_write_descriptors fields keys offset :
  appends (write_descriptors fields keys offset).
Proof.
  revert offset. induction keys as [|k keys IH]; intros offset.
  - apply appends_ret.
  - cbn [write_descriptors].
    repeat first
      [ apply IH | apply appends_WriteByte | apply appends_binary_Write
      | apply appends_check | apply appends_bind | intros ? ].
Qed.

Lemma appends_write_values fields keys : appends (write_values fields keys).
Proof.
  induction keys as [|k keys IH].
  - apply appends_ret.
  - cbn [write_values].
    apply appends_bind; [apply appends_Write|]. intros r.
    apply appends_bind; [apply appends_check|]. intros _.
    destruct (negb _); [apply appends_throw|apply IH].
Qed.

(** What lines 34-79 return: the buffer they started from, with what the
    writes appended, and the length patched in. *)
Lemma assemble_inv fields order buf pkt buf' :
  assemble fields order buf = Ok (pkt, buf') →
  ∃ t, (4 ≤ length (buf ++ t))%nat
    ∧ pkt = <[3%nat := to_byte (uint16 (Z.of_nat (length (buf ++ t))))]>
              (<[2%nat := to_byte (uint16 (Z.of_nat (length (buf ++ t))) ≫ 8)]>
                 (buf ++ t)).
Proof.
  unfold assemble. rewrite bind_run.
  destruct (write_descriptors _ _ _ _) as [[[] b1]| |] eqn:E1; [|done|done].
  apply appends_write_descriptors in E1 as [t1 ->].
  rewrite bind_run.
  destruct (WriteByte _ _) as [[err b2]| |] eqn:E2; [|done|done].
  apply appends_WriteByte in E2 as [t2 ->].
  rewrite bind_run. destruct err as [e|]; [done|]. cbn [check mret M_ret].
  rewrite bind_run.
  destruct (write_values _ _ _) as [[[] b3]| |] eqn:E3; [|done|done].
  apply appends_write_values in E3 as [t3 ->].
  rewrite bind_run. unfold Bytes at 1. rewrite bind_run. unfold PutUint16_2.
  destruct (Nat.ltb_spec (length (((buf ++ t1) ++ t2) ++ t3)) 4); [done|].
  unfold Bytes. intros [= <- _].
  exists (t1 ++ t2 ++ t3). rewrite !app_assoc. done.
Qed.

(** X11: whatever the writes on the buffer do, a packet that reaches the
    connection starts with the type tag and the status byte 1, holds its
    own length modulo 65536 in bytes 2-3 and zeros in bytes 4-7: the writes
    only append, and the patch touches bytes 2-3 only. *)
Theorem sent_packet_header P (conn : Conn) fields order (pkt : list byte) :
  (WritePreloginFields P conn fields order).1 = [Printf pkt; ConnWrite pkt] →
  take 2 pkt = [P; x01]
  ∧ header_length pkt = Some (Z.of_nat (length pkt) `mod` 65536)
  ∧ take 4 (drop 4 pkt) = [x00; x00; x00; x00]
  ∧ (8 ≤ length pkt)%nat.
Proof.
  unfold WritePreloginFields.
  destruct (assemble fields order (header P)) as [[pkt' b]| |] eqn:E;
    [|done|done].
  cbn [fst]. intros [= ->].
  apply assemble_inv in E as (t & _ & ->).
  unfold header. cbn [app length insert list_insert].
  split_and!.
  - reflexivity.
  - unfold header_length, u16_at. cbn [lookup list_lookup].
    rewrite be16_value. unfold uint16. f_equal. zlia.
  - reflexivity.
  - lia.
Qed.

End AnyWriterMore.

Lemma sent_packet_header_witness :
  take 2 (layout x12 prelogin_fields [x00; x01; x02; x03; x04]) = [x12; x01]
  ∧ header_length (layout x12 prelogin_fields [x00; x01; x02; x03; x04])
    = Some (Z.of_nat
              (length (layout x12 prelogin_fields [x00; x01; x02; x03; x04]))
            `mod` 65536)
  ∧ take 4 (drop 4 (layout x12 prelogin_fields [x00; x01; x02; x03; x04]))
    = [x00; x00; x00; x00]
  ∧ (8 ≤ length (layout x12 prelogin_fields [x00; x01; x02; x03; x04]))%nat.
Proof.
  apply (sent_packet_header (W := bytes_Buffer) x12 conn_ok prelogin_fields
           [x03; x00; x04; x02; x01]).
  vm_compute. reflexivity.
Defined.


Section ErrorsOfTheWriter.
Context {W : WritePolicy}.

Lemma passes_errors_ret {A} (a : A) : passes_errors (mret a).
Proof. intros buf e H. discriminate H. Qed.

Lemma passes_errors_short_write {A} : passes_errors (throw (A := A) short_write).
Proof. intros buf e [= <-]. by left. Qed.

Lemma passes_errors_bind {A B} (m : M A) (f : A → M B) :
  passes_errors m → (∀ a, passes_errors (f a)) → passes_errors (m ≫= f).
Proof.
  intros Hm Hf buf e. rewrite bind_run.
  destruct (m buf) as [[a buf1]|e1|] eqn:E; [apply Hf| |done].
  intros [= <-]. by apply (Hm buf).
Qed.

(** [r := w.Write(p); if r.err != nil { return r.err }; ...] *)
Lemma passes_errors_Write {A} (p : list byte) (k : nat * option error → M A) :
  (∀ r, passes_errors (k r)) →
  passes_errors (r ← Write p; check r.2;; k r).
Proof.
  intros Hk buf e. rewrite bind_run. unfold Write. rewrite bind_run.
  destruct (write_reports buf p) as [n [e1|]] eqn:E; cbn.
  - intros [= <-]. right. exists buf, p. by rewrite E.
  - apply Hk.
Qed.

Lemma passes_errors_WriteByte {A} (c : byte) (k : M A) :
  passes_errors k → passes_errors (err ← WriteByte c; check err;; k).
Proof.
  intros Hk buf e. rewrite bind_run. unfold WriteByte, Write.
  rewrite !bind_run. cbn.
  destruct (write_reports buf [c]) as [n [e1|]] eqn:E; cbn.
  - intros [= <-]. right. exists buf, [c]. by rewrite E.
  - apply Hk.
Qed.

Lemma passes_errors_binary_Write {A} (x : Z) (k : M A) :
  passes_errors k → passes_errors (err ← binary_Write x; check err;; k).
Proof.
  intros Hk buf e. rewrite bind_run. unfold binary_Write, Write.
  rewrite !bind_run. cbn.
  destruct (write_reports buf _) as [n [e1|]] eqn:E; cbn.
  - intros [= <-]. right. eexists buf, _. by rewrite E.
  - apply Hk.
Qed.

Lemma passes_errors_write_descriptors fields keys offset :
  passes_errors (write_descriptors fields keys offset).
Proof.
  revert offset. induction keys as [|k keys IH]; intros offset.
  - apply passes_errors_ret.
  - cbn [write_descriptors].
    apply passes_errors_WriteByte, passes_errors_binary_Write,
      passes_errors_binary_Write, IH.
Qed.

Lemma passes_errors_write_values fields keys :
  passes_errors (write_values fields keys).
Proof.
  induction keys as [|k keys IH].
  - apply passes_errors_ret.
  - cbn [write_values].
    apply (passes_errors_Write (field fields k)
             (λ r, if negb (r.1 =? length (field fields k))%nat
                   then throw short_write else write_values fields keys)).
    intros r. destruct (negb _); [apply passes_errors_short_write|apply IH].
Qed.

Lemma passes_errors_assemble fields order :
  passes_errors (assemble fields order).
Proof.
  unfold assemble.
  apply passes_errors_bind; [apply passes_errors_write_descriptors|].
  intros _. apply passes_errors_WriteByte.
  apply passes_errors_bind; [apply passes_errors_write_values|].
  intros _ buf e. rewrite bind_run. unfold Bytes at 1. rewrite bind_run.
  unfold PutUint16_2. destruct (_ <? _)%nat; done.
Qed.

(** X12: where an error of [WritePrelogin] comes from.  An error that it
    returns is the error "write method didn't write the whole value", or an
    error that a write on the buffer reported, returned as it is, and then
    nothing went to the connection; or it is the error that the one
    [conn.Write] reported, wrapped by [trace.Wrap]. *)
Theorem error_provenance P (conn : Conn) fields order (e : error) :
  (WritePreloginFields P conn fields order).2 = Returned (Some e) →
  ((e = short_write ∨ reported e)
   ∧ (WritePreloginFields P conn fields order).1 = [])
  ∨ ∃ pkt e', (conn pkt).2 = Some e' ∧ e = trace_Wrap e'
      ∧ (WritePreloginFields P conn fields order).1
        = [Printf pkt; ConnWrite pkt].
Proof.
  unfold WritePreloginFields.
  pose proof (passes_errors_assemble fields order (header P)) as Herr.
  destruct (assemble fields order (header P)) as [[pkt b]|e1|]; cbn.
  - destruct (conn pkt).2 as [e'|] eqn:E; [|done].
    intros [= <-]. right. by exists pkt, e'.
  - intros [= <-]. left. split; [by apply Herr|done].
  - done.
Qed.
End ErrorsOfTheWriter.

Lemma error_provenance_witness :
  ((trace_Wrap (io_error 1) = short_write
    ∨ reported (W := bytes_Buffer) (trace_Wrap (io_error 1)))
   ∧ (WritePreloginFields (W := bytes_Buffer) x12 conn_closed prelogin_fields
        [x03; x00; x04; x02; x01]).1 = [])
  ∨ ∃ pkt e', (conn_closed pkt).2 = Some e'
      ∧ trace_Wrap (io_error 1) = trace_Wrap e'
      ∧ (WritePreloginFields (W := bytes_Buffer) x12 conn_closed
           prelogin_fields [x03; x00; x04; x02; x01]).1
        = [Printf pkt; ConnWrite pkt].
Proof.
  apply (error_provenance (W := bytes_Buffer) x12 conn_closed prelogin_fields
           [x03; x00; x04; x02; x01]).
  reflexivity.
Defined.

(** * The bot configuration *)

Section ConfigDefaults.
Context {X : config.Missing}.

Import config.

Lemma check_destinations_length (dests : list DestinationConfig) :
  length (BotConfig.check_destinations dests).1 = length dests.
Proof.
  induction dests as [|d dests IH]; [done|]. cbn [BotConfig.check_destinations].
  destruct (DestinationConfig_CheckAndSetDefaults d) as [d' [e|]]; [done|].
  destruct (BotConfig.check_destinations dests) as [rest' err'].
  simpl in *. by rewrite IH.
Qed.

(** X13: after a [CheckAndSetDefaults] that returns nil, the certificate
    TTL and the renewal interval are what they were when that was not zero
    and the defaults (60 and 20 minutes) otherwise, so neither is zero; the
    storage is set; there are as many destinations as before; and the
    onboarding section, the debug and oneshot flags and the auth server are
    untouched. *)
Theorem CheckAndSetDefaults_ok (conf conf' : BotConfig.t) :
  BotConfig.CheckAndSetDefaults conf = (conf', None) →
  BotConfig.CertificateTTL conf'
  = (if BotConfig.CertificateTTL conf =? 0 then DefaultCertificateTTL
     else BotConfig.CertificateTTL conf)
  ∧ BotConfig.RenewalInterval conf'
    = (if BotConfig.RenewalInterval conf =? 0 then DefaultRenewInterval
       else BotConfig.RenewalInterval conf)
  ∧ BotConfig.CertificateTTL conf' ≠ 0
  ∧ BotConfig.RenewalInterval conf' ≠ 0
  ∧ is_Some (BotConfig.Storage conf')
  ∧ length (BotConfig.Destinations conf')
    = length (BotConfig.Destinations conf)
  ∧ BotConfig.Onboarding conf' = BotConfig.Onboarding conf
  ∧ BotConfig.Debug conf' = BotConfig.Debug conf
  ∧ BotConfig.AuthServer conf' = BotConfig.AuthServer conf
  ∧ BotConfig.Oneshot conf' = BotConfig.Oneshot conf.
Proof.
  unfold BotConfig.CheckAndSetDefaults.
  destruct (StorageConfig_CheckAndSetDefaults _) as [storage [e|]]; [done|].
  pose proof (check_destinations_length
                (BotConfig.Destinations
                   (BotConfig.set_Storage (Some storage) conf))) as Hlen.
  destruct (BotConfig.check_destinations _) as [dests [e|]]; [done|].
  intros [= <-]. destruct conf as [ob st ds dbg auth ttl ren one].
  cbn in *.
  destruct (Z.eqb_spec ttl 0); cbn; destruct (Z.eqb_spec ren 0); cbn;
    split_and!; try done; try (by eexists); by vm_compute.
Qed.

(** The destinations of a list that a failing loop has left alone. *)
Lemma check_destinations_failure (dests dests' : list DestinationConfig)
    (e : error) :
  BotConfig.check_destinations dests = (dests', Some e) →
  ∃ (i : nat) dest e0,
    dests !! i = Some dest
    ∧ (DestinationConfig_CheckAndSetDefaults dest).2 = Some e0
    ∧ e = Wrap e0
    ∧ drop (S i) dests' = drop (S i) dests
    ∧ ∀ j d, (j < i)%nat → dests !! j = Some d →
        (DestinationConfig_CheckAndSetDefaults d).2 = None.
Proof.
  revert dests'. induction dests as [|d dests IH]; intros dests'; [done|].
  cbn [BotConfig.check_destinations].
  destruct (DestinationConfig_CheckAndSetDefaults d) as [d' [e1|]] eqn:Ed.
  - intros [= <- <-]. exists 0%nat, d, e1. rewrite Ed.
    split_and!; try done. intros j d0 Hj. lia.
  - destruct (BotConfig.check_destinations dests) as [rest' err'] eqn:Er.
    intros [= <- ->].
    destruct (IH rest' eq_refl) as (i & dest & e0 & Hi & He0 & -> & Hdrop & Hb).
    exists (S i), dest, e0. split_and!; try done.
    intros [|j] d0 Hj Hd0; simpl in Hd0.
    + injection Hd0 as <-. by rewrite Ed.
    + apply (Hb j); [lia|done].
Qed.

(** X14: a [CheckAndSetDefaults] that fails returns the error of the
    storage check or of the first destination check that failed, wrapped
    once, and stops there: the destinations after the failing one are as
    they were, the checks before it had succeeded, and the certificate TTL
    and the renewal interval are not defaulted. *)
Theorem CheckAndSetDefaults_failure (conf conf' : BotConfig.t) (e : error) :
  BotConfig.CheckAndSetDefaults conf = (conf', Some e) →
  BotConfig.CertificateTTL conf' = BotConfig.CertificateTTL conf
  ∧ BotConfig.RenewalInterval conf' = BotConfig.RenewalInterval conf
  ∧ ((∃ e0,
        (StorageConfig_CheckAndSetDefaults
           (default StorageConfig_zero (BotConfig.Storage conf))).2 = Some e0
        ∧ e = Wrap e0
        ∧ BotConfig.Destinations conf' = BotConfig.Destinations conf)
     ∨ (∃ (i : nat) dest e0,
          BotConfig.Destinations conf !! i = Some dest
          ∧ (DestinationConfig_CheckAndSetDefaults dest).2 = Some e0
          ∧ e = Wrap e0
          ∧ drop (S i) (BotConfig.Destinations conf')
            = drop (S i) (BotConfig.Destinations conf)
          ∧ ∀ j d, (j < i)%nat → BotConfig.Destinations conf !! j = Some d →
              (DestinationConfig_CheckAndSetDefaults d).2 = None)).
Proof.
  unfold BotConfig.CheckAndSetDefaults.
  destruct (StorageConfig_CheckAndSetDefaults _) as [storage [e1|]] eqn:Es.
  - intros [= <- <-]. split_and!; try done. left. by exists e1.
  - destruct (BotConfig.check_destinations _) as [dests [e1|]] eqn:Ed;
      [|by destruct (_ =? 0), (_ =? 0)].
    intros [= <- <-]. split_and!; try done. right.
    by apply check_destinations_failure in Ed.
Qed.
End ConfigDefaults.

Lemma CheckAndSetDefaults_ok_witness :
  config.BotConfig.CertificateTTL
    (config.BotConfig.CheckAndSetDefaults toy_file).1
  = (if config.BotConfig.CertificateTTL toy_file =? 0
     then config.DefaultCertificateTTL
     else config.BotConfig.CertificateTTL toy_file)
  ∧ config.BotConfig.RenewalInterval
      (config.BotConfig.CheckAndSetDefaults toy_file).1
    = (if config.BotConfig.RenewalInterval toy_file =? 0
       then config.DefaultRenewInterval
       else config.BotConfig.RenewalInterval toy_file)
  ∧ config.BotConfig.CertificateTTL
      (config.BotConfig.CheckAndSetDefaults toy_file).1 ≠ 0
  ∧ config.BotConfig.RenewalInterval
      (config.BotConfig.CheckAndSetDefaults toy_file).1 ≠ 0
  ∧ is_Some (config.BotConfig.Storage
               (config.BotConfig.CheckAndSetDefaults toy_file).1)
  ∧ length (config.BotConfig.Destinations
              (config.BotConfig.CheckAndSetDefaults toy_file).1)
    = length (config.BotConfig.Destinations toy_file)
  ∧ config.BotConfig.Onboarding
      (config.BotConfig.CheckAndSetDefaults toy_file).1
    = config.BotConfig.Onboarding toy_file
  ∧ config.BotConfig.Debug (config.BotConfig.CheckAndSetDefaults toy_file).1
    = config.BotConfig.Debug toy_file
  ∧ config.BotConfig.AuthServer
      (config.BotConfig.CheckAndSetDefaults toy_file).1
    = config.BotConfig.AuthServer toy_file
  ∧ config.BotConfig.Oneshot
      (config.BotConfig.CheckAndSetDefaults toy_file).1
    = config.BotConfig.Oneshot toy_file.
Proof.
  apply (CheckAndSetDefaults_ok (X := toy) toy_file). reflexivity.
Defined.

Lemma CheckAndSetDefaults_failure_witness :
  config.BotConfig.CertificateTTL (config.BotConfig.CheckAndSetDefaults toy_bad).1
  = config.BotConfig.CertificateTTL toy_bad
  ∧ config.BotConfig.RenewalInterval
      (config.BotConfig.CheckAndSetDefaults toy_bad).1
    = config.BotConfig.RenewalInterval toy_bad
  ∧ ((∃ e0,
        (config.StorageConfig_CheckAndSetDefaults
           (default config.StorageConfig_zero
              (config.BotConfig.Storage toy_bad))).2 = Some e0
        ∧ config.Wrap (config.failure 2) = config.Wrap e0
        ∧ config.BotConfig.Destinations
            (config.BotConfig.CheckAndSetDefaults toy_bad).1
          = config.BotConfig.Destinations toy_bad)
     ∨ (∃ (i : nat) dest e0,
          config.BotConfig.Destinations toy_bad !! i = Some dest
          ∧ (config.DestinationConfig_CheckAndSetDefaults dest).2 = Some e0
          ∧ config.Wrap (config.failure 2) = config.Wrap e0
          ∧ drop (S i) (config.BotConfig.Destinations
                          (config.BotConfig.CheckAndSetDefaults toy_bad).1)
            = drop (S i) (config.BotConfig.Destinations toy_bad)
          ∧ ∀ j d, (j < i)%nat →
              config.BotConfig.Destinations toy_bad !! j = Some d →
              (config.DestinationConfig_CheckAndSetDefaults d).2 = None)).
Proof.
  apply (CheckAndSetDefaults_failure (X := toy) toy_bad). reflexivity.
Defined.

Section ConfigLookup.
Context {X : config.Missing}.

Import config.

Lemma not_directory_at (d : DestinationConfig) (path : string) destImpl :
  DestinationConfig_GetDestination d = inr destImpl →
  match as_DestinationDirectory destImpl with
  | Some destDir => String.eqb (DestinationDirectory.Path destDir) path = false
  | None => True
  end →
  ¬ directory_at d path.
Proof.
  intros Hd Hno (impl & dir & Himpl & Hdir & Hpath).
  rewrite Hd in Himpl. injection Himpl as <-. rewrite Hdir in Hno.
  apply String.eqb_neq in Hno. done.
Qed.

Lemma GetDestinationByPath_loop_spec (dests : list DestinationConfig)
    (path : string) :
  match BotConfig.GetDestinationByPath_loop dests path with
  | inr (Some dest) =>
      ∃ i : nat, dests !! i = Some dest ∧ directory_at dest path
        ∧ ∀ j d, (j < i)%nat → dests !! j = Some d →
            (∃ destImpl, DestinationConfig_GetDestination d = inr destImpl)
            ∧ ¬ directory_at d path
  | inr None =>
      ∀ d, d ∈ dests →
        (∃ destImpl, DestinationConfig_GetDestination d = inr destImpl)
        ∧ ¬ directory_at d path
  | inl e =>
      ∃ (i : nat) d e0, dests !! i = Some d
        ∧ DestinationConfig_GetDestination d = inl e0 ∧ e = Wrap e0
        ∧ ∀ j d', (j < i)%nat → dests !! j = Some d' →
            (∃ destImpl, DestinationConfig_GetDestination d' = inr destImpl)
            ∧ ¬ directory_at d' path
  end.
Proof.
  induction dests as [|dest dests IH]; cbn [BotConfig.GetDestinationByPath_loop].
  - intros d Hd. by apply not_elem_of_nil in Hd.
  - destruct (DestinationConfig_GetDestination dest) as [e0|destImpl] eqn:Ed.
    { exists 0%nat, dest, e0. split_and!; try done. intros j d' Hj. lia. }
    assert (Hskip :
      match as_DestinationDirectory destImpl with
      | Some destDir =>
          String.eqb (DestinationDirectory.Path destDir) path = false
      | None => True
      end →
      match BotConfig.GetDestinationByPath_loop dests path with
      | inr (Some dest0) =>
          ∃ i : nat, (dest :: dests) !! i = Some dest0
            ∧ directory_at dest0 path
            ∧ ∀ j d, (j < i)%nat → (dest :: dests) !! j = Some d →
                (∃ destImpl, DestinationConfig_GetDestination d = inr destImpl)
                ∧ ¬ directory_at d path
      | inr None =>
          ∀ d, d ∈ dest :: dests →
            (∃ destImpl, DestinationConfig_GetDestination d = inr destImpl)
            ∧ ¬ directory_at d path
      | inl e =>
          ∃ (i : nat) d e0, (dest :: dests) !! i = Some d
            ∧ DestinationConfig_GetDestination d = inl e0 ∧ e = Wrap e0
            ∧ ∀ j d', (j < i)%nat → (dest :: dests) !! j = Some d' →
                (∃ destImpl,
                   DestinationConfig_GetDestination d' = inr destImpl)
                ∧ ¬ directory_at d' path
      end).
    { intros Hno.
      pose proof (not_directory_at dest path destImpl Ed Hno) as Hnot.
      destruct (BotConfig.GetDestinationByPath_loop dests path)
        as [e|[found|]].
      - destruct IH as (i & d & e0 & Hi & He0 & -> & Hbefore).
        exists (S i), d, e0. split_and!; try done.
        intros [|j] d' Hj Hd'; simpl in Hd'.
        + injection Hd' as <-. eauto.
        + apply (Hbefore j); [lia|done].
      - destruct IH as (i & Hi & Hat & Hbefore).
        exists (S i). split_and!; try done.
        intros [|j] d' Hj Hd'; simpl in Hd'.
        + injection Hd' as <-. eauto.
        + apply (Hbefore j); [lia|done].
      - intros d [->|Hd]%elem_of_cons; [eauto|by apply IH]. }
    destruct (as_DestinationDirectory destImpl) as [destDir|] eqn:Edir;
      [|by apply Hskip].
    destruct (String.eqb_spec (DestinationDirectory.Path destDir) path)
      as [Hpath|Hpath]; [|by apply Hskip].
    exists 0%nat. split_and!; try done.
    + by exists destImpl, destDir.
    + intros j d Hj. lia.
Qed.

(** X15: [GetDestinationByPath] returns the first destination, in the
    order of the configuration, that resolves to a directory whose path is
    [path] as written; nil with no error when every destination resolves
    and none is such a directory; and the wrapped error of the first
    destination that does not resolve, when no destination before it
    matches.  Destinations that are not directories are passed over. *)
Theorem GetDestinationByPath_first_match (conf : BotConfig.t) (path : string) :
  match BotConfig.GetDestinationByPath conf path with
  | inr (Some dest) =>
      ∃ i : nat, BotConfig.Destinations conf !! i = Some dest
        ∧ directory_at dest path
        ∧ ∀ j d, (j < i)%nat → BotConfig.Destinations conf !! j = Some d →
            (∃ destImpl, DestinationConfig_GetDestination d = inr destImpl)
            ∧ ¬ directory_at d path
  | inr None =>
      ∀ d, d ∈ BotConfig.Destinations conf →
        (∃ destImpl, DestinationConfig_GetDestination d = inr destImpl)
        ∧ ¬ directory_at d path
  | inl e =>
      ∃ (i : nat) d e0, BotConfig.Destinations conf !! i = Some d
        ∧ DestinationConfig_GetDestination d = inl e0 ∧ e = Wrap e0
        ∧ ∀ j d', (j < i)%nat → BotConfig.Destinations conf !! j = Some d' →
            (∃ destImpl, DestinationConfig_GetDestination d' = inr destImpl)
            ∧ ¬ directory_at d' path
  end.
Proof. apply GetDestinationByPath_loop_spec. Qed.

(** The closed form of [CheckAndSetDefaults]. *)
Lemma CheckAndSetDefaults_eq (conf : BotConfig.t) :
  BotConfig.CheckAndSetDefaults conf
  = let sc := StorageConfig_CheckAndSetDefaults
                (default StorageConfig_zero (BotConfig.Storage conf)) in
    let dc := BotConfig.check_destinations (BotConfig.Destinations conf) in
    match sc.2 with
    | Some e => (BotConfig.set_Storage (Some sc.1) conf, Some (Wrap e))
    | None =>
        match dc.2 with
        | Some e =>
            (BotConfig.set_Destinations dc.1
               (BotConfig.set_Storage (Some sc.1) conf), Some e)
        | None =>
            (BotConfig.mk (BotConfig.Onboarding conf) (Some sc.1) dc.1
               (BotConfig.Debug conf) (BotConfig.AuthServer conf)
               (if BotConfig.CertificateTTL conf =? 0
                then DefaultCertificateTTL else BotConfig.CertificateTTL conf)
               (if BotConfig.RenewalInterval conf =? 0
                then DefaultRenewInterval else BotConfig.RenewalInterval conf)
               (BotConfig.Oneshot conf), None)
        end
    end.
Proof.
  unfold BotConfig.CheckAndSetDefaults. destruct conf as [ob st ds dbg a t r o].
  cbn. destruct (StorageConfig_CheckAndSetDefaults _) as [s [e|]]; [done|].
  cbn. destruct (BotConfig.check_destinations ds) as [ds' [e|]]; [done|].
  cbn. by destruct (t =? 0); cbn; destruct (r =? 0).
Qed.

(** X16: [NewDefaultConfig] gives the auth server it was called with, a
    certificate TTL of 60 minutes and a renewal interval of 20 minutes, no
    onboarding section, no destination, both flags off, and the default
    storage after its check; it fails only when that check fails, and then
    returns the error of that check after [trace.Wrap]. *)
Theorem NewDefaultConfig_defaults (authServer : string) :
  match NewDefaultConfig authServer with
  | inr cfg =>
      BotConfig.AuthServer cfg = authServer
      ∧ BotConfig.CertificateTTL cfg = 3600000000000
      ∧ BotConfig.RenewalInterval cfg = 1200000000000
      ∧ BotConfig.Onboarding cfg = None
      ∧ BotConfig.Destinations cfg = []
      ∧ BotConfig.Debug cfg = false
      ∧ BotConfig.Oneshot cfg = false
      ∧ BotConfig.Storage cfg
        = Some (StorageConfig_CheckAndSetDefaults StorageConfig_zero).1
      ∧ (StorageConfig_CheckAndSetDefaults StorageConfig_zero).2 = None
  | inl e =>
      ∃ e0, (StorageConfig_CheckAndSetDefaults StorageConfig_zero).2 = Some e0
        ∧ wrapped e e0
  end.
Proof.
  unfold NewDefaultConfig. rewrite CheckAndSetDefaults_eq. cbn.
  destruct (StorageConfig_CheckAndSetDefaults StorageConfig_zero)
    as [s [e|]]; cbn.
  - exists e. split; [done|]. apply wrapped_Wrap_more, wrapped_Wrap.
  - split_and!; done.
Qed.
End ConfigLookup.

Section ConfigMerge.
Context {X : config.Missing}.
Variable ReadConfigFromFile : string → config.error + config.BotConfig.t.

Import config.

(** The configuration after the overrides, field by field. *)
Lemma merge_config (cf : CLIConf.t) (f : BotConfig.t) :
  (merge cf f).2
  = BotConfig.mk
      (if onboarding_flags cf
       then Some (OnboardingConfig.mk (CLIConf.Token cf) ""
                    (CLIConf.CAPins cf) (CLIConf.JoinMethod cf))
       else BotConfig.Onboarding f)
      (if nonempty (CLIConf.DataDir cf)
       then Some (StorageConfig_directory (CLIConf.DataDir cf))
       else BotConfig.Storage f)
      (if nonempty (CLIConf.DestinationDir cf)
       then [DestinationConfig_directory (CLIConf.DestinationDir cf)]
       else BotConfig.Destinations f)
      (CLIConf.Debug cf || BotConfig.Debug f)
      (if nonempty (CLIConf.AuthServer cf) then CLIConf.AuthServer cf
       else BotConfig.AuthServer f)
      (if CLIConf.CertificateTTL cf =? 0 then BotConfig.CertificateTTL f
       else CLIConf.CertificateTTL cf)
      (if CLIConf.RenewalInterval cf =? 0 then BotConfig.RenewalInterval f
       else CLIConf.RenewalInterval cf)
      (CLIConf.Oneshot cf || BotConfig.Oneshot f).
Proof.
  destruct f as [fob fst fds fdbg fauth fttl fren fone].
  unfold merge, override_AuthServer, override_CertificateTTL,
    override_RenewalInterval, override_Storage, override_Destinations,
    override_Onboarding, onboarding_flags.
  destruct (CLIConf.Debug cf), (CLIConf.Oneshot cf),
    (nonempty (CLIConf.AuthServer cf)), (CLIConf.CertificateTTL cf =? 0),
    (CLIConf.RenewalInterval cf =? 0), (nonempty (CLIConf.DataDir cf)),
    (nonempty (CLIConf.DestinationDir cf)),
    (nonempty (CLIConf.Token cf) || (0 <? length (CLIConf.CAPins cf))%nat
     || nonempty (CLIConf.JoinMethod cf));
    reflexivity.
Qed.

Lemma FromCLIConf_eq (cf : CLIConf.t) :
  FromCLIConf ReadConfigFromFile cf
  = match loaded ReadConfigFromFile cf with
    | inl err =>
        ([], inl (WrapMsg err ("loading bot config from path "
                               ++ CLIConf.ConfigPath cf)))
    | inr f =>
        match BotConfig.CheckAndSetDefaults (merge cf f).2 with
        | (_, Some err) =>
            ((merge cf f).1, inl (WrapMsg err "validing merged bot config"))
        | (config, None) => ((merge cf f).1, inr config)
        end
    end.
Proof.
  unfold FromCLIConf.
  destruct (config.loaded ReadConfigFromFile cf) as [err|f]; [done|].
  by destruct (merge cf f).
Qed.

(** X17: command-line flags override the file, and the defaults come
    last.  In the result of a successful [FromCLIConf]: the debug and
    oneshot flags are on when the command line or the file turns them on;
    the auth server is the one of the command line when given, else the
    file's; the certificate TTL and the renewal interval are those of the
    command line when not zero, else the file's when not zero, else 60 and
    20 minutes; and when any of token, CA pins and join method is given the
    onboarding section holds these three alone, with no CA path, and
    nothing of the file's section, which is kept otherwise. *)
Theorem FromCLIConf_overrides (cf : CLIConf.t) (f c : BotConfig.t)
    (log : list log_event) :
  loaded ReadConfigFromFile cf = inr f →
  FromCLIConf ReadConfigFromFile cf = (log, inr c) →
  BotConfig.Debug c = CLIConf.Debug cf || BotConfig.Debug f
  ∧ BotConfig.Oneshot c = CLIConf.Oneshot cf || BotConfig.Oneshot f
  ∧ BotConfig.AuthServer c
    = (if nonempty (CLIConf.AuthServer cf) then CLIConf.AuthServer cf
       else BotConfig.AuthServer f)
  ∧ BotConfig.CertificateTTL c
    = (if negb (CLIConf.CertificateTTL cf =? 0) then CLIConf.CertificateTTL cf
       else if negb (BotConfig.CertificateTTL f =? 0)
            then BotConfig.CertificateTTL f
            else DefaultCertificateTTL)
  ∧ BotConfig.RenewalInterval c
    = (if negb (CLIConf.RenewalInterval cf =? 0)
       then CLIConf.RenewalInterval cf
       else if negb (BotConfig.RenewalInterval f =? 0)
            then BotConfig.RenewalInterval f
            else DefaultRenewInterval)
  ∧ BotConfig.Onboarding c
    = (if onboarding_flags cf
       then Some (OnboardingConfig.mk (CLIConf.Token cf) ""
                    (CLIConf.CAPins cf) (CLIConf.JoinMethod cf))
       else BotConfig.Onboarding f).
Proof.
  intros Hf. rewrite FromCLIConf_eq, Hf, CheckAndSetDefaults_eq, merge_config.
  cbn.
  destruct (StorageConfig_CheckAndSetDefaults _).2; [done|].
  destruct (BotConfig.check_destinations _).2; [done|].
  intros [= _ <-]. cbn.
  split_and!; try done.
  - destruct (Z.eqb_spec (CLIConf.CertificateTTL cf) 0) as [->|Hne]; cbn.
    + by destruct (_ =? 0).
    + by rewrite (proj2 (Z.eqb_neq _ _) Hne).
  - destruct (Z.eqb_spec (CLIConf.RenewalInterval cf) 0) as [->|Hne]; cbn.
    + by destruct (_ =? 0).
    + by rewrite (proj2 (Z.eqb_neq _ _) Hne).
Qed.

(** X18: the storage and the destinations of the result.  The storage is
    the directory of [DataDir] when that is given, else the file's, else
    the default one, after its check; the destinations are the one
    directory of [DestinationDir] when that is given, instead of all those
    of the file, else the file's, after their checks. *)
Theorem FromCLIConf_storage_and_destinations (cf : CLIConf.t)
    (f c : BotConfig.t) (log : list log_event) :
  loaded ReadConfigFromFile cf = inr f →
  FromCLIConf ReadConfigFromFile cf = (log, inr c) →
  BotConfig.Storage c
  = Some (StorageConfig_CheckAndSetDefaults
            (if nonempty (CLIConf.DataDir cf)
             then StorageConfig_directory (CLIConf.DataDir cf)
             else default StorageConfig_zero (BotConfig.Storage f))).1
  ∧ BotConfig.Destinations c
    = (BotConfig.check_destinations
         (if nonempty (CLIConf.DestinationDir cf)
          then [DestinationConfig_directory (CLIConf.DestinationDir cf)]
          else BotConfig.Destinations f)).1
  ∧ (nonempty (CLIConf.DestinationDir cf) = true →
     length (BotConfig.Destinations c) = 1%nat).
Proof.
  intros Hf. rewrite FromCLIConf_eq, Hf, CheckAndSetDefaults_eq, merge_config.
  cbn.
  destruct (StorageConfig_CheckAndSetDefaults _).2 eqn:Es; [done|].
  destruct (BotConfig.check_destinations _).2 eqn:Ed; [done|].
  intros [= _ <-]. cbn.
  split_and!.
  - by destruct (nonempty (CLIConf.DataDir cf)).
  - done.
  - intros ->. by rewrite check_destinations_length.
Qed.

(** X19: where an error of [FromCLIConf] comes from.  It is the error of
    reading the file, with the path in the message, and then nothing was
    logged; or it is the error of the check of the merged storage or of one
    of the merged destinations, wrapped once by [CheckAndSetDefaults] and
    once more with the message "validing merged bot config".  No value of
    a flag, no duration in particular, is rejected by [FromCLIConf]. *)
Theorem FromCLIConf_errors (cf : CLIConf.t) (log : list log_event)
    (e : error) :
  FromCLIConf ReadConfigFromFile cf = (log, inl e) →
  (∃ e0, nonempty (CLIConf.ConfigPath cf) = true
     ∧ ReadConfigFromFile (CLIConf.ConfigPath cf) = inl e0
     ∧ e = WrapMsg e0 ("loading bot config from path "
                       ++ CLIConf.ConfigPath cf)
     ∧ log = [])
  ∨ (∃ f e0, loaded ReadConfigFromFile cf = inr f
       ∧ e = WrapMsg (Wrap e0) "validing merged bot config"
       ∧ ((StorageConfig_CheckAndSetDefaults
             (if nonempty (CLIConf.DataDir cf)
              then StorageConfig_directory (CLIConf.DataDir cf)
              else default StorageConfig_zero (BotConfig.Storage f))).2
          = Some e0
          ∨ ∃ dest,
              dest ∈ (if nonempty (CLIConf.DestinationDir cf)
                      then [DestinationConfig_directory
                              (CLIConf.DestinationDir cf)]
                      else BotConfig.Destinations f)
              ∧ (DestinationConfig_CheckAndSetDefaults dest).2 = Some e0)).
Proof.
  rewrite FromCLIConf_eq. unfold config.loaded.
  destruct (nonempty (CLIConf.ConfigPath cf)) eqn:Hpath.
  - destruct (ReadConfigFromFile _) as [e0|f] eqn:Hread.
    + intros [= <- <-]. left. by exists e0.
    + rewrite CheckAndSetDefaults_eq, merge_config. cbn.
      destruct (StorageConfig_CheckAndSetDefaults _).2 as [e0|] eqn:Es.
      * intros [= _ <-]. right. exists f, e0. split_and!; try done. left.
        by destruct (nonempty (CLIConf.DataDir cf)).
      * destruct (BotConfig.check_destinations _) as [ds' [e1|]] eqn:Ed;
          cbn; [|done].
        intros [= _ <-].
        apply check_destinations_failure in Ed
          as (i & dest & e0 & Hi & He0 & -> & _).
        right. exists f, e0. split_and!; try done. right. exists dest.
        split; [by eapply list_elem_of_lookup_2|done].
  - rewrite CheckAndSetDefaults_eq, merge_config. cbn.
    destruct (StorageConfig_CheckAndSetDefaults _).2 as [e0|] eqn:Es.
    + intros [= _ <-]. right. exists BotConfig.zero, e0.
      split_and!; try done. left.
      by destruct (nonempty (CLIConf.DataDir cf)).
    + destruct (BotConfig.check_destinations _) as [ds' [e1|]] eqn:Ed;
        cbn; [|done].
      intros [= _ <-].
      apply check_destinations_failure in Ed
        as (i & dest & e0 & Hi & He0 & -> & _).
      right. exists BotConfig.zero, e0. split_and!; try done. right.
      exists dest. split; [by eapply list_elem_of_lookup_2|done].
Qed.

(** X20: the warnings without a configuration file.  When no
    configuration path is given, the only warning that [FromCLIConf] can
    log is the one about the onboarding configuration, and it logs it
    exactly when an onboarding flag is given and the join method is not
    "token": also for a token alone, with the join method left empty. *)
Theorem FromCLIConf_warnings_without_file (cf : CLIConf.t) :
  CLIConf.ConfigPath cf = ""%string →
  (FromCLIConf ReadConfigFromFile cf).1
  = if onboarding_flags cf
       && negb (String.eqb (CLIConf.JoinMethod cf) DefaultJoinMethod)
    then [Warnf "CLI parameters are overriding onboarding config from %s" ""]
    else [].
Proof.
  intros Hpath. rewrite FromCLIConf_eq. unfold config.loaded.
  rewrite Hpath. cbn.
  assert (Hlog : (merge cf BotConfig.zero).1
    = if onboarding_flags cf
         && negb (String.eqb (CLIConf.JoinMethod cf) DefaultJoinMethod)
      then [Warnf "CLI parameters are overriding onboarding config from %s" ""]
      else []).
  { unfold merge, override_AuthServer, override_CertificateTTL,
      override_RenewalInterval, override_Storage, override_Destinations,
      override_Onboarding, onboarding_flags. rewrite Hpath.
    destruct (CLIConf.Debug cf), (CLIConf.Oneshot cf),
      (nonempty (CLIConf.AuthServer cf)), (CLIConf.CertificateTTL cf =? 0),
      (CLIConf.RenewalInterval cf =? 0), (nonempty (CLIConf.DataDir cf)),
      (nonempty (CLIConf.DestinationDir cf)),
      (nonempty (CLIConf.Token cf) || (0 <? length (CLIConf.CAPins cf))%nat
       || nonempty (CLIConf.JoinMethod cf)),
      (String.eqb (CLIConf.JoinMethod cf) DefaultJoinMethod); reflexivity. }
  destruct (BotConfig.CheckAndSetDefaults _) as [c [e|]]; exact Hlog.
Qed.
End ConfigMerge.

Lemma FromCLIConf_overrides_witness :
  config.BotConfig.Debug toy_merged
  = config.CLIConf.Debug cli_flags || config.BotConfig.Debug toy_file
  ∧ config.BotConfig.Oneshot toy_merged
    = config.CLIConf.Oneshot cli_flags || config.BotConfig.Oneshot toy_file
  ∧ config.BotConfig.AuthServer toy_merged
    = (if config.nonempty (config.CLIConf.AuthServer cli_flags)
       then config.CLIConf.AuthServer cli_flags
       else config.BotConfig.AuthServer toy_file)
  ∧ config.BotConfig.CertificateTTL toy_merged
    = (if negb (config.CLIConf.CertificateTTL cli_flags =? 0)
       then config.CLIConf.CertificateTTL cli_flags
       else if negb (config.BotConfig.CertificateTTL toy_file =? 0)
            then config.BotConfig.CertificateTTL toy_file
            else config.DefaultCertificateTTL)
  ∧ config.BotConfig.RenewalInterval toy_merged
    = (if negb (config.CLIConf.RenewalInterval cli_flags =? 0)
       then config.CLIConf.RenewalInterval cli_flags
       else if negb (config.BotConfig.RenewalInterval toy_file =? 0)
            then config.BotConfig.RenewalInterval toy_file
            else config.DefaultRenewInterval)
  ∧ config.BotConfig.Onboarding toy_merged
    = (if onboarding_flags cli_flags
       then Some (config.OnboardingConfig.mk (config.CLIConf.Token cli_flags)
                    "" (config.CLIConf.CAPins cli_flags)
                    (config.CLIConf.JoinMethod cli_flags))
       else config.BotConfig.Onboarding toy_file).
Proof.
  apply (FromCLIConf_overrides (X := toy) toy_ReadConfigFromFile cli_flags
           toy_file toy_merged
           (config.FromCLIConf toy_ReadConfigFromFile cli_flags).1).
  - reflexivity.
  - reflexivity.
Defined.

Lemma FromCLIConf_storage_and_destinations_witness :
  config.BotConfig.Storage toy_merged
  = Some (config.StorageConfig_CheckAndSetDefaults
            (if config.nonempty (config.CLIConf.DataDir cli_flags)
             then config.StorageConfig_directory
                    (config.CLIConf.DataDir cli_flags)
             else default config.StorageConfig_zero
                    (config.BotConfig.Storage toy_file))).1
  ∧ config.BotConfig.Destinations toy_merged
    = (config.BotConfig.check_destinations
         (if config.nonempty (config.CLIConf.DestinationDir cli_flags)
          then [config.DestinationConfig_directory
                  (config.CLIConf.DestinationDir cli_flags)]
          else config.BotConfig.Destinations toy_file)).1
  ∧ (config.nonempty (config.CLIConf.DestinationDir cli_flags) = true →
     length (config.BotConfig.Destinations toy_merged) = 1%nat).
Proof.
  apply (FromCLIConf_storage_and_destinations (X := toy)
           toy_ReadConfigFromFile cli_flags toy_file toy_merged
           (config.FromCLIConf toy_ReadConfigFromFile cli_flags).1).
  - reflexivity.
  - reflexivity.
Defined.

Lemma FromCLIConf_errors_witness :
  (∃ e0, config.nonempty (config.CLIConf.ConfigPath cli_missing_file) = true
     ∧ toy_ReadConfigFromFile (config.CLIConf.ConfigPath cli_missing_file)
       = inl e0
     ∧ config.WrapMsg (config.failure 4)
         "loading bot config from path nowhere.yaml"
       = config.WrapMsg e0 ("loading bot config from path "
                            ++ config.CLIConf.ConfigPath cli_missing_file)
     ∧ ([] : list config.log_event) = [])
  ∨ (∃ f e0, config.loaded toy_ReadConfigFromFile cli_missing_file = inr f
       ∧ config.WrapMsg (config.failure 4)
           "loading bot config from path nowhere.yaml"
         = config.WrapMsg (config.Wrap e0) "validing merged bot config"
       ∧ ((config.StorageConfig_CheckAndSetDefaults
             (if config.nonempty (config.CLIConf.DataDir cli_missing_file)
              then config.StorageConfig_directory
                     (config.CLIConf.DataDir cli_missing_file)
              else default config.StorageConfig_zero
                     (config.BotConfig.Storage f))).2
          = Some e0
          ∨ ∃ dest,
              dest ∈ (if config.nonempty
                           (config.CLIConf.DestinationDir cli_missing_file)
                      then [config.DestinationConfig_directory
                              (config.CLIConf.DestinationDir cli_missing_file)]
                      else config.BotConfig.Destinations f)
              ∧ (config.DestinationConfig_CheckAndSetDefaults dest).2
                = Some e0)).
Proof.
  apply (FromCLIConf_errors (X := toy) toy_ReadConfigFromFile cli_missing_file
           [] (config.WrapMsg (config.failure 4)
                 "loading bot config from path nowhere.yaml")).
  reflexivity.
Defined.

Lemma FromCLIConf_warnings_without_file_witness :
  (config.FromCLIConf (X := toy) toy_ReadConfigFromFile cli_token).1
  = if onboarding_flags cli_token
       && negb (String.eqb (config.CLIConf.JoinMethod cli_token)
                  config.DefaultJoinMethod)
    then [config.Warnf
            "CLI parameters are overriding onboarding config from %s" ""]
    else [].
Proof.
  apply (FromCLIConf_warnings_without_file (X := toy) toy_ReadConfigFromFile
           cli_token).
  reflexivity.
Defined.

(** The run behind these: the warnings and the merged configuration. *)
Example FromCLIConf_cli_flags :
  config.FromCLIConf (X := toy) toy_ReadConfigFromFile cli_flags
  = ([config.Warnf
        "CLI parameters are overriding auth server configured in %s"
        "bot.yaml";
      config.Warnf "CLI parameters are overriding destinations from %s"
        "bot.yaml";
      config.Warnf "CLI parameters are overriding onboarding config from %s"
        "bot.yaml"],
     inr toy_merged).
Proof. reflexivity. Qed.

Example FromCLIConf_cli_token :
  (config.FromCLIConf (X := toy) toy_ReadConfigFromFile cli_token).1
  = [config.Warnf "CLI parameters are overriding onboarding config from %s" ""].
Proof. reflexivity. Qed.
